(** * Interaction reply lifecycle of disgo: response state, responder, dispatch

    A shallow embedding of [events/interaction_events.go] (the
    [InteractionResponseState] and the reply methods of the interaction
    events) and of the interaction handler ([respond], [handleInteraction],
    [gatewayHandlerInteractionCreate]).

    Go code that touches the shared response state, the network or the
    event manager is written in a small program monad [prog] whose
    primitive actions are the lock operations of [sync.RWMutex], the field
    and pointer accesses, and the calls into the collaborators.  A program
    is run to its end on one goroutine by [run], or one action at a time by
    [step]; a pool of goroutines interleaves the steps of its programs.

    The first part of the file holds the definitions: the data, the world,
    the programs and their semantics, the Go functions, and the notions the
    properties are stated with.  The second part holds the properties: what
    one call does, the properties of the responder and of the dispatch for
    calls made one after the other, and then the same guard under every
    interleaving of concurrent calls. *)

From stdpp Require Import prelude strings.

Open Scope Z_scope.
Open Scope string_scope.
Open Scope list_scope.

(** ** Package discord: the data the handler consumes *)

(** [type InteractionResponseType int]. *)
Definition InteractionResponseType := Z.

(** The response type constants and the ephemeral message flag are declared
    in package discord, outside the files embedded here; the development is
    parametric in their values. *)
Class DiscordConsts := {
  InteractionResponseTypeAcknowledge : InteractionResponseType;
  InteractionResponseTypeCreateMessage : InteractionResponseType;
  InteractionResponseTypeDeferredCreateMessage : InteractionResponseType;
  InteractionResponseTypeDeferredUpdateMessage : InteractionResponseType;
  InteractionResponseTypeUpdateMessage : InteractionResponseType;
  InteractionResponseTypeAutocompleteResult : InteractionResponseType;
  InteractionResponseTypeModal : InteractionResponseType;
  InteractionResponseTypeLaunchActivity : InteractionResponseType;
  MessageFlagEphemeral : Z
}.

(** A Go [error] value is [option error]: [None] is the nil error. *)
Inductive error :=
| ErrInteractionAlreadyReplied
| ErrOther (msg : string).

Global Instance error_eq_dec : EqDecision error.
Proof. solve_decision. Defined.

(** Payloads, reduced to the fields the reply methods set. *)
Record MessageCreate := { mc_Content : string; mc_Flags : Z }.
Record MessageUpdate := { mu_Content : string }.
Record ModalCreate := { modal_CustomID : string; modal_Title : string }.
Record AutocompleteChoice := { choice_Name : string; choice_Value : string }.

(** [discord.InteractionResponseData] is an interface; a nil interface value
    is [None] of [option InteractionResponseData]. *)
Inductive InteractionResponseData :=
| DataMessageCreate (m : MessageCreate)
| DataMessageUpdate (m : MessageUpdate)
| DataModalCreate (m : ModalCreate)
| DataAutocompleteResult (Choices : list AutocompleteChoice).

Record InteractionResponse := {
  Type_ : InteractionResponseType;
  Data : option InteractionResponseData
}.

(** [rest.RequestOpt] values are opaque to this code. *)
Definition RequestOpt := nat.

(** What the handler reads of an interaction. *)
Record baseInteraction := {
  ID : N;
  Token : string;
  ApplicationID : N;
  GuildID : option N
}.

(** Modelled from the spec: the [discord.Interaction] interface is declared
    outside the embedded files; per the spec an interaction carries a
    discriminant identifying which of four variants it is.  The dynamic type
    of the (non-nil) interface value is the constructor; [OtherInteraction]
    stands for every dynamic type the type switch of [handleInteraction]
    does not list, with the name that the format verb [%T] prints. *)
Inductive Interaction :=
| ApplicationCommandInteraction (i : baseInteraction)
| ComponentInteraction (i : baseInteraction)
| AutocompleteInteraction (i : baseInteraction)
| ModalSubmitInteraction (i : baseInteraction)
| OtherInteraction (goType : string) (i : baseInteraction).

Definition interaction_base (x : Interaction) : baseInteraction :=
  match x with
  | ApplicationCommandInteraction i | ComponentInteraction i
  | AutocompleteInteraction i | ModalSubmitInteraction i
  | OtherInteraction _ i => i
  end.

(** ** Handles of the collaborators *)

(** A [*bot.Client]. *)
Definition Client := nat.
(** A non-nil [httpserver.RespondFunc]: the sink of one HTTP request. *)
Definition RespondFunc := nat.
(** Addresses, of response states and of response type cells. *)
Definition ptr := nat.

(** ** Package events: the shared state and the events *)

(** [sync.RWMutex]: held by one writer or by a number of readers. *)
Record RWMutex := { writer : bool; readers : nat }.

Record InteractionResponseState := {
  Mu : RWMutex;
  ResponseTypeValue : option ptr
}.

(** The responder is a closure; it is represented by the variables it
    captures, and [invoke] below is its body.  A [*InteractionResponseState]
    is [option ptr], [None] being the nil pointer. *)
Record InteractionResponderFunc := {
  rf_client : Client;
  rf_respondFunc : option RespondFunc;
  rf_interaction : Interaction;
  rf_responseState : option ptr
}.

Record GenericEvent := {
  ge_client : Client;
  ge_sequenceNumber : Z;
  ge_shardID : Z
}.

(** Modelled from the spec: [events.NewGenericEvent] is declared outside the
    embedded files; the envelope is built from the three scalar inputs. *)
Definition NewGenericEvent (client : Client) (sequenceNumber shardID : Z) : GenericEvent :=
  {| ge_client := client; ge_sequenceNumber := sequenceNumber; ge_shardID := shardID |}.

(** The five event structs have the same four fields; the struct type is
    the tag [ev_struct]. *)
Inductive EventStruct :=
| InteractionCreate
| ApplicationCommandInteractionCreate
| ComponentInteractionCreate
| AutocompleteInteractionCreate
| ModalSubmitInteractionCreate.

Record Event := {
  ev_struct : EventStruct;
  ev_GenericEvent : GenericEvent;
  ev_Interaction : Interaction;
  Respond : InteractionResponderFunc;
  ResponseState : option ptr
}.

Global Instance EventStruct_eq_dec : EqDecision EventStruct.
Proof. solve_decision. Defined.

(** ** The world the code runs in *)

Inductive Call :=
| CallRespondFunc (f : RespondFunc) (response : InteractionResponse)
| CallCreateInteractionResponse (client : Client) (interactionID : N) (token : string)
    (response : InteractionResponse) (opts : list RequestOpt).

Record LogRecord := {
  log_client : Client;
  log_msg : string;
  log_attrs : list (string * string)
}.

Record World := {
  states : list InteractionResponseState;
  cells : list InteractionResponseType;
  calls : list Call;
  dispatched : list (Client * Event);
  logs : list LogRecord
}.

(** The outcome of an outbound call, decided by the environment from the
    calls made so far and the call itself. *)
Definition Env := list Call → Call → option error.

Definition set_state (a : ptr) (st : InteractionResponseState) (σ : World) : World :=
  {| states := <[a := st]> (states σ); cells := cells σ; calls := calls σ;
     dispatched := dispatched σ; logs := logs σ |}.

Definition set_cells (c : list InteractionResponseType) (σ : World) : World :=
  {| states := states σ; cells := c; calls := calls σ;
     dispatched := dispatched σ; logs := logs σ |}.

Definition push_state (st : InteractionResponseState) (σ : World) : World :=
  {| states := states σ ++ [st]; cells := cells σ; calls := calls σ;
     dispatched := dispatched σ; logs := logs σ |}.

Definition push_call (c : Call) (σ : World) : World :=
  {| states := states σ; cells := cells σ; calls := calls σ ++ [c];
     dispatched := dispatched σ; logs := logs σ |}.

Definition push_event (client : Client) (e : Event) (σ : World) : World :=
  {| states := states σ; cells := cells σ; calls := calls σ;
     dispatched := dispatched σ ++ [(client, e)]; logs := logs σ |}.

Definition push_log (l : LogRecord) (σ : World) : World :=
  {| states := states σ; cells := cells σ; calls := calls σ;
     dispatched := dispatched σ; logs := logs σ ++ [l] |}.

(** ** Programs *)

Inductive prog (A : Type) : Type :=
| Ret (a : A)
| Panic (msg : string)
| RLock (s : ptr) (k : prog A)
| RUnlock (s : ptr) (k : prog A)
| Lock (s : ptr) (k : prog A)
| Unlock (s : ptr) (k : prog A)
| GetResponseTypeValue (s : ptr) (k : option ptr → prog A)
| SetResponseTypeValue (s : ptr) (v : option ptr) (k : prog A)
| Deref (p : ptr) (k : InteractionResponseType → prog A)
| New (v : InteractionResponseType) (k : ptr → prog A)
| NewState (k : ptr → prog A)
| Outbound (c : Call) (k : option error → prog A)
| Dispatch (client : Client) (e : Event) (k : prog A)
| LogError (l : LogRecord) (k : prog A).

Arguments Ret {A} a.
Arguments Panic {A} msg.
Arguments RLock {A} s k.
Arguments RUnlock {A} s k.
Arguments Lock {A} s k.
Arguments Unlock {A} s k.
Arguments GetResponseTypeValue {A} s k.
Arguments SetResponseTypeValue {A} s v k.
Arguments Deref {A} p k.
Arguments New {A} v k.
Arguments NewState {A} k.
Arguments Outbound {A} c k.
Arguments Dispatch {A} client e k.
Arguments LogError {A} l k.

Fixpoint bind {A B} (p : prog A) (f : A → prog B) : prog B :=
  match p with
  | Ret a => f a
  | Panic msg => Panic msg
  | RLock s k => RLock s (bind k f)
  | RUnlock s k => RUnlock s (bind k f)
  | Lock s k => Lock s (bind k f)
  | Unlock s k => Unlock s (bind k f)
  | GetResponseTypeValue s k => GetResponseTypeValue s (λ v, bind (k v) f)
  | SetResponseTypeValue s v k => SetResponseTypeValue s v (bind k f)
  | Deref p k => Deref p (λ v, bind (k v) f)
  | New v k => New v (λ p, bind (k p) f)
  | NewState k => NewState (λ p, bind (k p) f)
  | Outbound c k => Outbound c (λ r, bind (k r) f)
  | Dispatch client e k => Dispatch client e (bind k f)
  | LogError l k => LogError l (bind k f)
  end.

Global Instance prog_ret : MRet prog := λ A a, Ret a.
Global Instance prog_bind : MBind prog := λ A B f p, bind p f.

(** The primitive actions as programs. *)
Definition rlock (s : ptr) : prog () := RLock s (Ret ()).
Definition runlock (s : ptr) : prog () := RUnlock s (Ret ()).
Definition lock (s : ptr) : prog () := Lock s (Ret ()).
Definition unlock (s : ptr) : prog () := Unlock s (Ret ()).
Definition get_ResponseTypeValue (s : ptr) : prog (option ptr) := GetResponseTypeValue s Ret.
Definition set_ResponseTypeValue (s : ptr) (v : option ptr) : prog () :=
  SetResponseTypeValue s v (Ret ()).
Definition deref (p : ptr) : prog InteractionResponseType := Deref p Ret.
Definition new (v : InteractionResponseType) : prog ptr := New v Ret.
Definition new_state : prog ptr := NewState Ret.
Definition outbound (c : Call) : prog (option error) := Outbound c Ret.
Definition DispatchEvent (client : Client) (e : Event) : prog () := Dispatch client e (Ret ()).
Definition Logger_Error (client : Client) (msg : string) (attrs : list (string * string)) : prog () :=
  LogError {| log_client := client; log_msg := msg; log_attrs := attrs |} (Ret ()).

(** ** What one action does to the world

    Each function returns [inl] of a reason when the action does not go
    through: the thread has to wait for the mutex, or the Go runtime stops
    the program. *)

Inductive Stop :=
| Wait
| Crash (msg : string).

Definition do_rlock (s : ptr) (σ : World) : Stop + World :=
  match states σ !! s with
  | None => inl (Crash "invalid memory address or nil pointer dereference")
  | Some st =>
      if writer (Mu st) then inl Wait
      else inr (set_state s {| Mu := {| writer := false; readers := S (readers (Mu st)) |};
                               ResponseTypeValue := ResponseTypeValue st |} σ)
  end.

Definition do_runlock (s : ptr) (σ : World) : Stop + World :=
  match states σ !! s with
  | None => inl (Crash "invalid memory address or nil pointer dereference")
  | Some st =>
      match readers (Mu st) with
      | O => inl (Crash "sync: RUnlock of unlocked RWMutex")
      | S n => inr (set_state s {| Mu := {| writer := writer (Mu st); readers := n |};
                                   ResponseTypeValue := ResponseTypeValue st |} σ)
      end
  end.

Definition do_lock (s : ptr) (σ : World) : Stop + World :=
  match states σ !! s with
  | None => inl (Crash "invalid memory address or nil pointer dereference")
  | Some st =>
      if writer (Mu st) then inl Wait
      else match readers (Mu st) with
           | S _ => inl Wait
           | O => inr (set_state s {| Mu := {| writer := true; readers := O |};
                                      ResponseTypeValue := ResponseTypeValue st |} σ)
           end
  end.

Definition do_unlock (s : ptr) (σ : World) : Stop + World :=
  match states σ !! s with
  | None => inl (Crash "invalid memory address or nil pointer dereference")
  | Some st =>
      if writer (Mu st)
      then inr (set_state s {| Mu := {| writer := false; readers := readers (Mu st) |};
                               ResponseTypeValue := ResponseTypeValue st |} σ)
      else inl (Crash "sync: Unlock of unlocked RWMutex")
  end.

Definition do_get (s : ptr) (σ : World) : Stop + option ptr :=
  match states σ !! s with
  | None => inl (Crash "invalid memory address or nil pointer dereference")
  | Some st => inr (ResponseTypeValue st)
  end.

Definition do_set (s : ptr) (v : option ptr) (σ : World) : Stop + World :=
  match states σ !! s with
  | None => inl (Crash "invalid memory address or nil pointer dereference")
  | Some st => inr (set_state s {| Mu := Mu st; ResponseTypeValue := v |} σ)
  end.

Definition do_deref (p : ptr) (σ : World) : Stop + InteractionResponseType :=
  match cells σ !! p with
  | None => inl (Crash "invalid memory address or nil pointer dereference")
  | Some v => inr v
  end.

(** A new variable whose address is taken lives at the next free address. *)
Definition do_new (v : InteractionResponseType) (σ : World) : ptr * World :=
  (length (cells σ), set_cells (cells σ ++ [v]) σ).

(** [&InteractionResponseState{}]: the zero value, at the next free address. *)
Definition do_new_state (σ : World) : ptr * World :=
  (length (states σ),
   push_state {| Mu := {| writer := false; readers := O |}; ResponseTypeValue := None |} σ).

Definition do_outbound (env : Env) (c : Call) (σ : World) : option error * World :=
  (env (calls σ) c, push_call c σ).

(** ** Running programs *)

Inductive Step (A : Type) :=
| Next (p : prog A) (σ : World)
| Stopped (why : Stop)
| Returned (a : A).

Arguments Next {A} p σ.
Arguments Stopped {A} why.
Arguments Returned {A} a.

Inductive Result (A : Type) :=
| Done (a : A) (σ : World)
| Halt (why : Stop) (σ : World).

Arguments Done {A} a σ.
Arguments Halt {A} why σ.

Section Semantics.
Context (env : Env).

(** One action of a thread. *)
Definition step {A} (p : prog A) (σ : World) : Step A :=
  match p with
  | Ret a => Returned a
  | Panic msg => Stopped (Crash msg)
  | RLock s k => match do_rlock s σ with inl w => Stopped w | inr σ' => Next k σ' end
  | RUnlock s k => match do_runlock s σ with inl w => Stopped w | inr σ' => Next k σ' end
  | Lock s k => match do_lock s σ with inl w => Stopped w | inr σ' => Next k σ' end
  | Unlock s k => match do_unlock s σ with inl w => Stopped w | inr σ' => Next k σ' end
  | GetResponseTypeValue s k =>
      match do_get s σ with inl w => Stopped w | inr v => Next (k v) σ end
  | SetResponseTypeValue s v k =>
      match do_set s v σ with inl w => Stopped w | inr σ' => Next k σ' end
  | Deref p k => match do_deref p σ with inl w => Stopped w | inr v => Next (k v) σ end
  | New v k => let '(p, σ') := do_new v σ in Next (k p) σ'
  | NewState k => let '(p, σ') := do_new_state σ in Next (k p) σ'
  | Outbound c k => let '(r, σ') := do_outbound env c σ in Next (k r) σ'
  | Dispatch client e k => Next k (push_event client e σ)
  | LogError l k => Next k (push_log l σ)
  end.

(** A whole call on one goroutine, nothing else running: waiting for the
    mutex then never ends, and the run halts there. *)
Fixpoint run {A} (p : prog A) (σ : World) : Result A :=
  match p with
  | Ret a => Done a σ
  | Panic msg => Halt (Crash msg) σ
  | RLock s k => match do_rlock s σ with inl w => Halt w σ | inr σ' => run k σ' end
  | RUnlock s k => match do_runlock s σ with inl w => Halt w σ | inr σ' => run k σ' end
  | Lock s k => match do_lock s σ with inl w => Halt w σ | inr σ' => run k σ' end
  | Unlock s k => match do_unlock s σ with inl w => Halt w σ | inr σ' => run k σ' end
  | GetResponseTypeValue s k =>
      match do_get s σ with inl w => Halt w σ | inr v => run (k v) σ end
  | SetResponseTypeValue s v k =>
      match do_set s v σ with inl w => Halt w σ | inr σ' => run k σ' end
  | Deref p k => match do_deref p σ with inl w => Halt w σ | inr v => run (k v) σ end
  | New v k => let '(p, σ') := do_new v σ in run (k p) σ'
  | NewState k => let '(p, σ') := do_new_state σ in run (k p) σ'
  | Outbound c k => let '(r, σ') := do_outbound env c σ in run (k r) σ'
  | Dispatch client e k => run k (push_event client e σ)
  | LogError l k => run k (push_log l σ)
  end.

(** [n] actions of a thread, or fewer when it returns or stops before. *)
Fixpoint steps {A} (n : nat) (p : prog A) (σ : World) : Step A :=
  match n with
  | O => Next p σ
  | S n' =>
      match step p σ with
      | Next p' σ' => steps n' p' σ'
      | other => other
      end
  end.
End Semantics.

(** ** events/interaction_events.go *)

Definition NewInteractionResponseState : prog (option ptr) :=
  s ← new_state; mret (Some s).

(** The deferred [RUnlock] runs on both ways out of the locked part. *)
Definition ResponseType (s : option ptr) : prog (option ptr) :=
  match s with
  | None => mret None
  | Some a =>
      rlock a;;
      v ← get_ResponseTypeValue a;
      match v with
      | None => runlock a;; mret None
      | Some p =>
          responseType ← deref p;
          q ← new responseType;
          runlock a;;
          mret (Some q)
      end
  end.

Section Events.
Context `{DiscordConsts}.

Definition IsDefferedReply (s : option ptr) : prog bool :=
  responseType ← ResponseType s;
  match responseType with
  | None => mret false
  | Some p =>
      v ← deref p;
      mret (bool_decide (v = InteractionResponseTypeDeferredCreateMessage))
  end.

Definition IsDefferedUpdate (s : option ptr) : prog bool :=
  responseType ← ResponseType s;
  match responseType with
  | None => mret false
  | Some p =>
      v ← deref p;
      mret (bool_decide (v = InteractionResponseTypeDeferredUpdateMessage))
  end.
End Events.

(** The methods [ResponseType], [IsDefferedReply] and [IsDefferedUpdate] of
    the five event structs pass their [ResponseState] field on. *)
Definition Event_ResponseType (e : Event) : prog (option ptr) :=
  ResponseType (ResponseState e).
Definition Event_IsDefferedReply `{DiscordConsts} (e : Event) : prog bool :=
  IsDefferedReply (ResponseState e).
Definition Event_IsDefferedUpdate `{DiscordConsts} (e : Event) : prog bool :=
  IsDefferedUpdate (ResponseState e).

(** ** The interaction handler *)

(** The call the responder makes when it reaches the outbound step. *)
Definition outbound_call (f : InteractionResponderFunc) (response : InteractionResponse)
    (opts : list RequestOpt) : Call :=
  match rf_respondFunc f with
  | Some respondFunc => CallRespondFunc respondFunc response
  | None =>
      CallCreateInteractionResponse (rf_client f) (ID (interaction_base (rf_interaction f)))
        (Token (interaction_base (rf_interaction f))) response opts
  end.

(** Lines 40 to 47 of [respond]: the commit under the write lock, reached
    when the outbound call returned a nil error.  The deferred [Unlock]
    runs on both ways out. *)
Definition respond_commit (responseState : option ptr) (responseType : InteractionResponseType)
    : prog (option error) :=
  match responseState with
  | None => Panic "invalid memory address or nil pointer dereference"
  | Some a =>
      lock a;;
      v ← get_ResponseTypeValue a;
      match v with
      | Some _ => unlock a;; mret (Some ErrInteractionAlreadyReplied)
      | None =>
          responseTypeCopy ← new responseType;
          set_ResponseTypeValue a (Some responseTypeCopy);;
          unlock a;;
          mret None
      end
  end.

(** The body of the closure that [respond] returns. *)
Definition invoke (f : InteractionResponderFunc) (responseType : InteractionResponseType)
    (data : option InteractionResponseData) (opts : list RequestOpt) : prog (option error) :=
  cur ← ResponseType (rf_responseState f);
  match cur with
  | Some _ => mret (Some ErrInteractionAlreadyReplied)
  | None =>
      let response := {| Type_ := responseType; Data := data |} in
      err ← outbound (outbound_call f response opts);
      match err with
      | Some e => mret (Some e)
      | None => respond_commit (rf_responseState f) responseType
      end
  end.

Definition respond (client : Client) (respondFunc : option RespondFunc)
    (interaction : Interaction) (responseState : option ptr) : InteractionResponderFunc :=
  {| rf_client := client; rf_respondFunc := respondFunc;
     rf_interaction := interaction; rf_responseState := responseState |}.

Definition handleInteraction (client : Client) (sequenceNumber shardID : Z)
    (respondFunc : option RespondFunc) (interaction : Interaction) : prog () :=
  let genericEvent := NewGenericEvent client sequenceNumber shardID in
  responseState ← NewInteractionResponseState;
  let responder := respond client respondFunc interaction responseState in
  DispatchEvent client
    {| ev_struct := InteractionCreate; ev_GenericEvent := genericEvent;
       ev_Interaction := interaction; Respond := responder;
       ResponseState := responseState |};;
  match interaction with
  | ApplicationCommandInteraction i =>
      DispatchEvent client
        {| ev_struct := ApplicationCommandInteractionCreate; ev_GenericEvent := genericEvent;
           ev_Interaction := ApplicationCommandInteraction i; Respond := responder;
           ResponseState := responseState |}
  | ComponentInteraction i =>
      DispatchEvent client
        {| ev_struct := ComponentInteractionCreate; ev_GenericEvent := genericEvent;
           ev_Interaction := ComponentInteraction i; Respond := responder;
           ResponseState := responseState |}
  | AutocompleteInteraction i =>
      DispatchEvent client
        {| ev_struct := AutocompleteInteractionCreate; ev_GenericEvent := genericEvent;
           ev_Interaction := AutocompleteInteraction i; Respond := responder;
           ResponseState := responseState |}
  | ModalSubmitInteraction i =>
      DispatchEvent client
        {| ev_struct := ModalSubmitInteractionCreate; ev_GenericEvent := genericEvent;
           ev_Interaction := ModalSubmitInteraction i; Respond := responder;
           ResponseState := responseState |}
  | OtherInteraction goType _ =>
      Logger_Error client "unknown interaction" [("type", goType)]
  end.

Definition gatewayHandlerInteractionCreate (client : Client) (sequenceNumber shardID : Z)
    (event_Interaction : Interaction) : prog () :=
  handleInteraction client sequenceNumber shardID None event_Interaction.

(** ** Reading the world *)

(** The pointer stored in the response state at [a]. *)
Definition response_ptr (a : ptr) (σ : World) : option ptr :=
  st ← states σ !! a; ResponseTypeValue st.

(** The reply kind the response state at [a] records, if any. *)
Definition stored_kind (a : ptr) (σ : World) : option InteractionResponseType :=
  p ← response_ptr a σ; cells σ !! p.

(** The caller's assignment [*p = v] through a pointer it holds. *)
Definition assign (p : ptr) (v : InteractionResponseType) (σ : World) : World :=
  set_cells (<[p := v]> (cells σ)) σ.

(** Nobody holds the mutex of the state at [a], and the pointer the state
    stores, when it stores one, is the address of a cell. *)
Definition idle (a : ptr) (σ : World) : Prop :=
  ∃ v, states σ !! a = Some {| Mu := {| writer := false; readers := O |};
                              ResponseTypeValue := v |}
       ∧ ∀ p, v = Some p → is_Some (cells σ !! p).

(** The world after the state at [a] has recorded the kind [k]. *)
Definition commit (a : ptr) (k : InteractionResponseType) (σ : World) : World :=
  set_state a {| Mu := {| writer := false; readers := O |};
                 ResponseTypeValue := Some (length (cells σ)) |}
    (set_cells (cells σ ++ [k]) σ).

(** ** The reply methods of the event structs *)

Section ReplyMethods.
Context `{DiscordConsts}.

Definition Acknowledge (e : Event) (opts : list RequestOpt) : prog (option error) :=
  invoke (Respond e) InteractionResponseTypeAcknowledge None opts.

Definition CreateMessage (e : Event) (messageCreate : MessageCreate)
    (opts : list RequestOpt) : prog (option error) :=
  invoke (Respond e) InteractionResponseTypeCreateMessage
    (Some (DataMessageCreate messageCreate)) opts.

Definition DeferCreateMessage (e : Event) (ephemeral : bool)
    (opts : list RequestOpt) : prog (option error) :=
  let data :=
    if ephemeral
    then Some (DataMessageCreate {| mc_Content := ""; mc_Flags := MessageFlagEphemeral |})
    else None in
  invoke (Respond e) InteractionResponseTypeDeferredCreateMessage data opts.

Definition UpdateMessage (e : Event) (messageUpdate : MessageUpdate)
    (opts : list RequestOpt) : prog (option error) :=
  invoke (Respond e) InteractionResponseTypeUpdateMessage
    (Some (DataMessageUpdate messageUpdate)) opts.

Definition DeferUpdateMessage (e : Event) (opts : list RequestOpt) : prog (option error) :=
  invoke (Respond e) InteractionResponseTypeDeferredUpdateMessage None opts.

Definition Modal (e : Event) (modalCreate : ModalCreate)
    (opts : list RequestOpt) : prog (option error) :=
  invoke (Respond e) InteractionResponseTypeModal (Some (DataModalCreate modalCreate)) opts.

Definition LaunchActivity (e : Event) (opts : list RequestOpt) : prog (option error) :=
  invoke (Respond e) InteractionResponseTypeLaunchActivity None opts.

Definition AutocompleteResult (e : Event) (choices : list AutocompleteChoice)
    (opts : list RequestOpt) : prog (option error) :=
  invoke (Respond e) InteractionResponseTypeAutocompleteResult
    (Some (DataAutocompleteResult choices)) opts.
End ReplyMethods.

(** A reply method with its arguments. *)
Inductive ReplyCall :=
| Acknowledge_ (opts : list RequestOpt)
| CreateMessage_ (messageCreate : MessageCreate) (opts : list RequestOpt)
| DeferCreateMessage_ (ephemeral : bool) (opts : list RequestOpt)
| UpdateMessage_ (messageUpdate : MessageUpdate) (opts : list RequestOpt)
| DeferUpdateMessage_ (opts : list RequestOpt)
| Modal_ (modalCreate : ModalCreate) (opts : list RequestOpt)
| LaunchActivity_ (opts : list RequestOpt)
| AutocompleteResult_ (choices : list AutocompleteChoice) (opts : list RequestOpt).

Inductive ReplyMethod :=
| mAcknowledge | mCreateMessage | mDeferCreateMessage | mUpdateMessage
| mDeferUpdateMessage | mModal | mLaunchActivity | mAutocompleteResult.

Global Instance ReplyMethod_eq_dec : EqDecision ReplyMethod.
Proof. solve_decision. Defined.

Definition method_of (c : ReplyCall) : ReplyMethod :=
  match c with
  | Acknowledge_ _ => mAcknowledge
  | CreateMessage_ _ _ => mCreateMessage
  | DeferCreateMessage_ _ _ => mDeferCreateMessage
  | UpdateMessage_ _ _ => mUpdateMessage
  | DeferUpdateMessage_ _ => mDeferUpdateMessage
  | Modal_ _ _ => mModal
  | LaunchActivity_ _ => mLaunchActivity
  | AutocompleteResult_ _ _ => mAutocompleteResult
  end.

(** The reply methods each event struct declares, in source order. *)
Definition reply_methods (s : EventStruct) : list ReplyMethod :=
  match s with
  | InteractionCreate => []
  | ApplicationCommandInteractionCreate =>
      [mAcknowledge; mCreateMessage; mDeferCreateMessage; mModal; mLaunchActivity]
  | ComponentInteractionCreate =>
      [mAcknowledge; mCreateMessage; mDeferCreateMessage; mUpdateMessage;
       mDeferUpdateMessage; mModal; mLaunchActivity]
  | AutocompleteInteractionCreate => [mAcknowledge; mAutocompleteResult]
  | ModalSubmitInteractionCreate =>
      [mAcknowledge; mCreateMessage; mDeferCreateMessage; mUpdateMessage;
       mDeferUpdateMessage; mLaunchActivity]
  end.

(** A method call on an event: [None] when the event's struct does not
    declare the method, so that the call does not compile. *)
Definition call_method `{DiscordConsts} (e : Event) (c : ReplyCall)
    : option (prog (option error)) :=
  if bool_decide (method_of c ∈ reply_methods (ev_struct e)) then
    Some match c with
         | Acknowledge_ opts => Acknowledge e opts
         | CreateMessage_ messageCreate opts => CreateMessage e messageCreate opts
         | DeferCreateMessage_ ephemeral opts => DeferCreateMessage e ephemeral opts
         | UpdateMessage_ messageUpdate opts => UpdateMessage e messageUpdate opts
         | DeferUpdateMessage_ opts => DeferUpdateMessage e opts
         | Modal_ modalCreate opts => Modal e modalCreate opts
         | LaunchActivity_ opts => LaunchActivity e opts
         | AutocompleteResult_ choices opts => AutocompleteResult e choices opts
         end
  else None.

(** ** Sequences of calls on one response state *)

Inductive Op :=
| OpRespond (client : Client) (respondFunc : option RespondFunc) (interaction : Interaction)
    (responseType : InteractionResponseType) (data : option InteractionResponseData)
    (opts : list RequestOpt)
| OpResponseType
| OpIsDefferedReply
| OpIsDefferedUpdate.

Definition op_prog `{DiscordConsts} (a : ptr) (op : Op) : prog () :=
  match op with
  | OpRespond client respondFunc interaction responseType data opts =>
      invoke (respond client respondFunc interaction (Some a)) responseType data opts;;
      mret ()
  | OpResponseType => ResponseType (Some a);; mret ()
  | OpIsDefferedReply => IsDefferedReply (Some a);; mret ()
  | OpIsDefferedUpdate => IsDefferedUpdate (Some a);; mret ()
  end.

Fixpoint ops_prog `{DiscordConsts} (a : ptr) (ops : list Op) : prog () :=
  match ops with
  | [] => mret ()
  | op :: rest => op_prog a op;; ops_prog a rest
  end.

(** The events dispatched and the outbound calls made between two worlds. *)
Definition new_events (σ σ' : World) : list (Client * Event) :=
  drop (length (dispatched σ)) (dispatched σ').
Definition new_calls (σ σ' : World) : list Call :=
  drop (length (calls σ)) (calls σ').

(** The event struct that goes with the dynamic type of an interaction. *)
Definition variant_struct (x : Interaction) : option EventStruct :=
  match x with
  | ApplicationCommandInteraction _ => Some ApplicationCommandInteractionCreate
  | ComponentInteraction _ => Some ComponentInteractionCreate
  | AutocompleteInteraction _ => Some AutocompleteInteractionCreate
  | ModalSubmitInteraction _ => Some ModalSubmitInteractionCreate
  | OtherInteraction _ _ => None
  end.

(** The event of struct [s] that [handleInteraction] builds for an
    interaction whose response state it has put at [a]. *)
Definition built_event (s : EventStruct) (client : Client) (sequenceNumber shardID : Z)
    (respondFunc : option RespondFunc) (interaction : Interaction) (a : ptr) : Event :=
  {| ev_struct := s;
     ev_GenericEvent := NewGenericEvent client sequenceNumber shardID;
     ev_Interaction := interaction;
     Respond := respond client respondFunc interaction (Some a);
     ResponseState := Some a |}.

(** The world [handleInteraction] leaves behind. *)
Definition handled (client : Client) (sequenceNumber shardID : Z)
    (respondFunc : option RespondFunc) (interaction : Interaction) (σ : World) : World :=
  let a := length (states σ) in
  let ev s := built_event s client sequenceNumber shardID respondFunc interaction a in
  let σ1 := push_state {| Mu := {| writer := false; readers := O |};
                          ResponseTypeValue := None |} σ in
  let σ2 := push_event client (ev InteractionCreate) σ1 in
  match variant_struct interaction with
  | Some s => push_event client (ev s) σ2
  | None =>
      push_log {| log_client := client; log_msg := "unknown interaction";
                  log_attrs := [("type",
                    match interaction with OtherInteraction goType _ => goType | _ => "" end)] |}
        σ2
  end.

(** ** Sample values, for the examples *)

(** One assignment of the constants of package discord; the proofs do not
    depend on the values. *)
Definition sample_consts : DiscordConsts :=
  {| InteractionResponseTypeAcknowledge := 0;
     InteractionResponseTypeCreateMessage := 4;
     InteractionResponseTypeDeferredCreateMessage := 5;
     InteractionResponseTypeDeferredUpdateMessage := 6;
     InteractionResponseTypeUpdateMessage := 7;
     InteractionResponseTypeAutocompleteResult := 8;
     InteractionResponseTypeModal := 9;
     InteractionResponseTypeLaunchActivity := 12;
     MessageFlagEphemeral := 64 |}.

(** Environments: every outbound call succeeds; every call fails; the
    first call fails and the later ones succeed. *)
Definition env_ok : Env := λ _ _, None.
Definition env_down : Env := λ _ _, Some (ErrOther "connection reset").
Definition env_flaky : Env :=
  λ history _, match history with [] => Some (ErrOther "connection reset") | _ => None end.

Definition sample_base : baseInteraction :=
  {| ID := 7%N; Token := "token"; ApplicationID := 1%N; GuildID := None |}.

Definition empty_world : World :=
  {| states := []; cells := []; calls := []; dispatched := []; logs := [] |}.

(** The world after a command interaction has come in over the gateway,
    and after an autocomplete interaction has come in over HTTP with the
    response sink 3. *)
Definition command_world : World :=
  handled 1%nat 42 0 None (ApplicationCommandInteraction sample_base) empty_world.
Definition autocomplete_world : World :=
  handled 1%nat 42 0 (Some 3%nat) (AutocompleteInteraction sample_base) empty_world.

Definition command_responder : InteractionResponderFunc :=
  respond 1%nat None (ApplicationCommandInteraction sample_base) (Some 0%nat).

(** The command world after its responder has sent the kind 5 through the
    request client and recorded it. *)
Definition replied_world : World :=
  commit 0%nat 5
    (push_call (CallCreateInteractionResponse 1%nat 7%N "token"
                  {| Type_ := 5; Data := None |} []) command_world).

Definition sample_ops : list Op :=
  [OpRespond 1%nat None (ApplicationCommandInteraction sample_base) 4 None [];
   OpIsDefferedReply; OpResponseType; OpIsDefferedUpdate;
   OpRespond 1%nat (Some 3%nat) (ApplicationCommandInteraction sample_base) 6 None []].

Definition autocomplete_event : Event :=
  built_event AutocompleteInteractionCreate 1%nat 42 0 (Some 3%nat)
    (AutocompleteInteraction sample_base) 0%nat.

(** ** Goroutines

    The calls on one response state, each on a goroutine of its own.  A
    pool is the list of what each goroutine has left to run; a step of
    the pool is one action of one goroutine. *)

Inductive Value :=
| VErr (e : option error)
| VPtr (p : option ptr)
| VBool (b : bool).

Definition go `{DiscordConsts} (a : ptr) (op : Op) : prog Value :=
  match op with
  | OpRespond client respondFunc interaction responseType data opts =>
      r ← invoke (respond client respondFunc interaction (Some a)) responseType data opts;
      mret (VErr r)
  | OpResponseType => r ← ResponseType (Some a); mret (VPtr r)
  | OpIsDefferedReply => r ← IsDefferedReply (Some a); mret (VBool r)
  | OpIsDefferedUpdate => r ← IsDefferedUpdate (Some a); mret (VBool r)
  end.

Inductive pool_step {A} (env : Env) : list (prog A) * World → list (prog A) * World → Prop :=
| pool_step_thread ts σ i p p' σ' :
    ts !! i = Some p →
    step env p σ = Next p' σ' →
    pool_step env (ts, σ) (<[i := p']> ts, σ').

(** The pool after the goroutines named in [order] have taken one step
    each, in that order; [None] when one of them cannot step. *)
Fixpoint schedule {A} (env : Env) (order : list nat) (ts : list (prog A)) (σ : World)
    : option (list (prog A) * World) :=
  match order with
  | [] => Some (ts, σ)
  | i :: rest =>
      match ts !! i with
      | None => None
      | Some p =>
          match step env p σ with
          | Next p' σ' => schedule env rest (<[i := p']> ts) σ'
          | _ => None
          end
      end
  end.

(** *** Where a goroutine stands

    [Mode] is the hold a goroutine has on the mutex, [Writing true] when it
    has read a nil [ResponseTypeValue] under the write lock.  [Stage] is how
    far its call has come: [Pending] before it has seen or recorded a reply,
    [Rejecting] once it has seen a recorded reply, [Won] once it has
    recorded its own, [Failed] once its outbound call has failed; an
    [Observer] only reads. *)

Inductive Mode :=
| Free
| Reading
| Writing (seen_nil : bool).

Inductive Stage :=
| Pending
| Rejecting
| Won
| Failed (e : error)
| Observer.

Global Instance Mode_eq_dec : EqDecision Mode.
Proof. solve_decision. Defined.
Global Instance Stage_eq_dec : EqDecision Stage.
Proof. solve_decision. Defined.

Definition result_ok (s : Stage) (r : Value) : Prop :=
  match s with
  | Pending => False
  | Rejecting => r = VErr (Some ErrInteractionAlreadyReplied)
  | Won => r = VErr None
  | Failed e => r = VErr (Some e)
  | Observer => ∀ e, r ≠ VErr e
  end.

Definition mode_after_get (m : Mode) (v : option ptr) : Mode :=
  match m with
  | Writing _ => Writing (bool_decide (v = None))
  | _ => m
  end.

Definition stage_after_get (s : Stage) (v : option ptr) : Stage :=
  match s, v with
  | Pending, Some _ => Rejecting
  | _, _ => s
  end.

(** A goroutine that has seen or recorded a reply does not read nil. *)
Definition may_read (s : Stage) (v : option ptr) : Prop :=
  match s, v with
  | (Rejecting | Won), None => False
  | _, _ => True
  end.

(** The program [p] keeps to the discipline of the response state at [a],
    from stage [s] and mode [m] on, when the cells below address [n] are
    allocated: it takes and releases the mutex in turn, reads the field
    under a lock, writes it only under the write lock after it has read nil
    there, and then with the address of a cell, follows only pointers to
    cells, makes its outbound call while it holds no lock, and returns what
    its stage says.  By the time a read or an allocation takes place other
    goroutines may have allocated more cells, hence the later bound [n']. *)
Fixpoint staged (a : ptr) (n : nat) (p : prog Value) (s : Stage) (m : Mode) : Prop :=
  match p with
  | Ret r => m = Free ∧ result_ok s r
  | Panic _ => False
  | RLock x k => x = a ∧ m = Free ∧ staged a n k s Reading
  | RUnlock x k => x = a ∧ m = Reading ∧ staged a n k s Free
  | Lock x k => x = a ∧ m = Free ∧ staged a n k s (Writing false)
  | Unlock x k => x = a ∧ (∃ b, m = Writing b) ∧ staged a n k s Free
  | GetResponseTypeValue x k =>
      x = a ∧ m ≠ Free
      ∧ ∀ v n', (n ≤ n')%nat → (∀ q, v = Some q → (q < n')%nat) → may_read s v →
                staged a n' (k v) (stage_after_get s v) (mode_after_get m v)
  | SetResponseTypeValue x v k =>
      x = a ∧ m = Writing true ∧ s = Pending
      ∧ (∃ q, v = Some q ∧ (q < n)%nat)
      ∧ staged a n k Won (Writing false)
  | Deref q k => (q < n)%nat ∧ ∀ v, staged a n (k v) s m
  | New _ k => ∀ n', (n ≤ n')%nat → staged a (S n') (k n') s m
  | NewState k => ∀ q, staged a n (k q) s m
  | Outbound _ k =>
      m = Free ∧ s = Pending
      ∧ staged a n (k None) Pending Free
      ∧ ∀ e, staged a n (k (Some e)) (Failed e) Free
  | Dispatch _ _ k => staged a n k s m
  | LogError _ k => staged a n k s m
  end.

Fixpoint tally (f : Stage * Mode → nat) (gs : list (Stage * Mode)) : nat :=
  match gs with
  | [] => 0
  | g :: gs' => f g + tally f gs'
  end.

Definition is_writing (g : Stage * Mode) : nat :=
  match g.2 with Writing _ => 1 | _ => 0 end.
Definition is_reading (g : Stage * Mode) : nat :=
  match g.2 with Reading => 1 | _ => 0 end.
Definition is_won (g : Stage * Mode) : nat :=
  match g.1 with Won => 1 | _ => 0 end.

(** The pool [ts], with its goroutines standing at [gs], agrees with the
    response state [st] at [a]: the mutex is held by exactly the goroutines
    that are in a locked mode, the field is set exactly when one goroutine
    has won, or when it was set before the pool started ([n0 = 1]), and
    when set it holds the address of a cell. *)
Record pool_inv (env : Env) (a : ptr) (n0 : nat) (ts : list (prog Value))
    (gs : list (Stage * Mode)) (σ : World) (st : InteractionResponseState) : Prop := {
  inv_state : states σ !! a = Some st;
  inv_staged : Forall2 (λ p g, staged a (length (cells σ)) p g.1 g.2) ts gs;
  inv_valid : ∀ q, ResponseTypeValue st = Some q → (q < length (cells σ))%nat;
  inv_writer : tally is_writing gs = if writer (Mu st) then 1%nat else 0%nat;
  inv_readers : tally is_reading gs = readers (Mu st);
  inv_seen : ∀ i s, gs !! i = Some (s, Writing true) → ResponseTypeValue st = None;
  inv_won : (tally is_won gs + n0)%nat
            = match ResponseTypeValue st with Some _ => 1%nat | None => 0%nat end;
  inv_rejecting : ∀ i m, gs !! i = Some (Rejecting, m) → is_Some (ResponseTypeValue st);
  inv_failed : ∀ i e m, gs !! i = Some (Failed e, m) → ∃ h c, env h c = Some e
}.

Definition pool_ok (env : Env) (a : ptr) (n0 : nat) (ts : list (prog Value)) (σ : World)
    : Prop :=
  ∃ gs st, pool_inv env a n0 ts gs σ st.

(** The stage a call starts at. *)
Definition first_stage (op : Op) : Stage :=
  match op with
  | OpRespond _ _ _ _ _ _ => Pending
  | _ => Observer
  end.

(** The goroutine has returned. *)
Definition returned {A} (p : prog A) : option A :=
  match p with Ret r => Some r | _ => None end.

(** A responder goroutine that will return [ErrInteractionAlreadyReplied]
    without an outbound call and without a write, as long as the field it
    reads is set. *)
Fixpoint rejecting (a : ptr) (p : prog Value) : Prop :=
  match p with
  | Ret r => r = VErr (Some ErrInteractionAlreadyReplied)
  | RLock x k | RUnlock x k | Lock x k | Unlock x k => x = a ∧ rejecting a k
  | GetResponseTypeValue x k => x = a ∧ ∀ q, rejecting a (k (Some q))
  | Deref _ k => ∀ v, rejecting a (k v)
  | New _ k => ∀ q, rejecting a (k q)
  | _ => False
  end.

(** Two subscribers of a command interaction reply at the same time: one
    calls [Acknowledge], the other [DeferCreateMessage] without the
    ephemeral flag. *)
Definition race_pool : list (prog Value) :=
  [@go sample_consts 0%nat
     (OpRespond 1%nat None (ApplicationCommandInteraction sample_base) 0 None []);
   @go sample_consts 0%nat
     (OpRespond 1%nat None (ApplicationCommandInteraction sample_base) 5 None [])].

(** Both goroutines pass the check, both make their outbound call, then
    the second commits and the first comes to its commit too late. *)
Definition race_order : list nat :=
  [0; 0; 0; 1; 1; 1; 0; 1; 1; 1; 1; 1; 1; 0; 0; 0]%nat.

(** The first goroutine has taken the write lock when the second wants to
    read. *)
Definition blocked_order : list nat := [0; 0; 0; 0; 0; 1]%nat.

(** ** Proof automation *)

Ltac walk_staged :=
  repeat (simpl;
          match goal with
          | |- _ ∧ _ => split
          | |- ∀ v : option _, _ => intros [?|]
          | |- ∀ _, _ => intro
          | |- ∃ _, _ => eexists
          | |- (_ < _)%nat => first [lia|eauto with lia]
          | |- _ => done
          end).

Ltac rewrite_do :=
  match goal with Hd : _ = _ |- _ => rewrite Hd end.

Ltac run_pool_step IH Hi k' :=
  eapply rtc_l;
    [econstructor; [exact Hi|simpl; first [done|by rewrite_do]]|];
  rewrite <- (list_insert_insert_eq _ _ (Ret _) k');
  eapply IH; [done|];
  apply list_lookup_insert_eq; by eapply lookup_lt_Some.

(** ** Further notions for the properties of the second part *)

(** The kind each reply method sends, its payload and its options. *)
Definition method_kind `{DiscordConsts} (c : ReplyCall) : InteractionResponseType :=
  match c with
  | Acknowledge_ _ => InteractionResponseTypeAcknowledge
  | CreateMessage_ _ _ => InteractionResponseTypeCreateMessage
  | DeferCreateMessage_ _ _ => InteractionResponseTypeDeferredCreateMessage
  | UpdateMessage_ _ _ => InteractionResponseTypeUpdateMessage
  | DeferUpdateMessage_ _ => InteractionResponseTypeDeferredUpdateMessage
  | Modal_ _ _ => InteractionResponseTypeModal
  | LaunchActivity_ _ => InteractionResponseTypeLaunchActivity
  | AutocompleteResult_ _ _ => InteractionResponseTypeAutocompleteResult
  end.

(** A caller that tries one reply after the other through one responder
    and keeps what each try returned. *)
Fixpoint attempt_all (f : InteractionResponderFunc)
    (attempts : list (InteractionResponseType * option InteractionResponseData
                      * list RequestOpt)) : prog (list (option error)) :=
  match attempts with
  | [] => mret []
  | (responseType, data, opts) :: rest =>
      r ← invoke f responseType data opts;
      rs ← attempt_all f rest;
      mret (r :: rs)
  end.

(** The transport a responder was given at dispatch. *)
Definition to_transport (f : InteractionResponderFunc) (c : Call) : Prop :=
  match rf_respondFunc f, c with
  | Some sink, CallRespondFunc sink' _ => sink' = sink
  | None, CallCreateInteractionResponse client interactionID token _ _ =>
      client = rf_client f
      ∧ interactionID = ID (interaction_base (rf_interaction f))
      ∧ token = Token (interaction_base (rf_interaction f))
  | _, _ => False
  end.

(** *** Whose kind is recorded

    How far a responder goroutine of kind [k] has come with recording it:
    [Holding q] once it has a cell at [q] holding [k], [Recorded] once it
    has written the field. *)
Inductive Phase :=
| Before
| Holding (q : ptr)
| Recorded.

Definition phase_after_new (k v : InteractionResponseType) (q : ptr) (ph : Phase) : Phase :=
  match ph with
  | Recorded => Recorded
  | _ => if decide (v = k) then Holding q else ph
  end.

(** The program [p], from phase [ph] on, writes the field of the state at
    [a] only with the address of a cell that it has allocated for the kind
    [k], and returns nil only after such a write. *)
Fixpoint kinded (a : ptr) (k : InteractionResponseType) (p : prog Value) (ph : Phase)
    : Prop :=
  match p with
  | Ret r => match ph with Recorded => True | _ => r ≠ VErr None end
  | Panic _ => True
  | RLock _ k' => kinded a k k' ph
  | RUnlock _ k' => kinded a k k' ph
  | Lock _ k' => kinded a k k' ph
  | Unlock _ k' => kinded a k k' ph
  | GetResponseTypeValue _ k' => ∀ v, kinded a k (k' v) ph
  | SetResponseTypeValue x v k' =>
      x = a ∧ ∃ q, ph = Holding q ∧ v = Some q ∧ kinded a k k' Recorded
  | Deref _ k' => ∀ v, kinded a k (k' v) ph
  | New v k' => ∀ q, kinded a k (k' q) (phase_after_new k v q ph)
  | NewState k' => ∀ q, kinded a k (k' q) ph
  | Outbound _ k' => ∀ r, kinded a k (k' r) ph
  | Dispatch _ _ k' => kinded a k k' ph
  | LogError _ k' => kinded a k k' ph
  end.

Definition phase_ok (a : ptr) (k : InteractionResponseType) (ph : Phase) (σ : World) : Prop :=
  match ph with
  | Before => True
  | Holding q => cells σ !! q = Some k
  | Recorded => stored_kind a σ = Some k
  end.

Ltac walk_kinded :=
  repeat (simpl;
          match goal with
          | |- _ ∧ _ => split
          | |- ∀ v : option _, _ => intros [?|]
          | |- ∀ _, _ => intro
          | |- context [phase_after_new _ _ _ _] => unfold phase_after_new
          | |- context [decide ?P] => destruct (decide P)
          | |- ∃ _, _ => eexists
          | |- _ => done
          end).

(** The goroutine stands at an outbound call. *)
Definition at_outbound {A} (p : prog A) : bool :=
  match p with Outbound _ _ => true | _ => false end.

(** *** More sample values *)

Definition command_event : Event :=
  built_event ApplicationCommandInteractionCreate 1%nat 42 0 None
    (ApplicationCommandInteraction sample_base) 0%nat.
Definition generic_event : Event :=
  built_event InteractionCreate 1%nat 42 0 None
    (ApplicationCommandInteraction sample_base) 0%nat.

(** The first goroutine of the race has made its outbound call and stands
    before its commit; the second has recorded its reply and returned. *)
Definition late_order : list nat := [0; 0; 0; 1; 1; 1; 0; 1; 1; 1; 1; 1; 1]%nat.

(** The race after the goroutines named in [order] have stepped. *)
Definition race_after (order : list nat) : list (prog Value) * World :=
  default (race_pool, command_world) (schedule env_ok order race_pool command_world).

(** Calls and reads on the replied world, each on its goroutine, after they
    have all taken the read lock and read the field. *)
Definition readers_pool : list (prog Value) := @go sample_consts 0%nat <$> sample_ops.
Definition readers_order : list nat := [0; 1; 2; 3; 4; 0; 1; 2; 3; 4; 0; 0; 0]%nat.
Definition readers_after : list (prog Value) * World :=
  default (readers_pool, replied_world)
    (schedule env_ok readers_order readers_pool replied_world).

(** The first goroutine of the race has passed its outbound call and taken
    the write lock. *)
Definition held_order : list nat := [0; 0; 0; 0; 0]%nat.

(** Three tries of a reply, of kinds 5, 4 and 6. *)
Definition sample_attempts
    : list (InteractionResponseType * option InteractionResponseData * list RequestOpt) :=
  [(5, None, []); (4, None, []); (6, None, [])].

(** The goroutine has returned nil from a responder call. *)
Definition returned_nil (p : prog Value) : bool :=
  match p with
  | Ret (VErr None) => true
  | _ => false
  end.


(** * Properties *)

(** ** Running a sequence *)

Lemma run_bind env {A B} (p : prog A) (f : A → prog B) σ :
  run env (p ≫= f) σ =
  match run env p σ with Done a σ' => run env (f a) σ' | Halt w σ' => Halt w σ' end.
Proof.
  unfold mbind, prog_bind. revert σ.
  induction p; intros σ; simpl; try done;
    repeat match goal with
    | |- context [match ?x with _ => _ end] => destruct x; simpl; try done
    end; auto.
Qed.

(** ** Worlds *)

Lemma set_state_same a st σ : states σ !! a = Some st → set_state a st σ = σ.
Proof.
  intros Hst. destruct σ; unfold set_state; simpl in *. f_equal.
  by apply list_insert_id.
Qed.

Lemma set_state_twice a st st' σ :
  set_state a st (set_state a st' σ) = set_state a st σ.
Proof. unfold set_state; simpl. f_equal. apply list_insert_insert_eq. Qed.

Lemma lookup_set_state a st σ :
  is_Some (states σ !! a) → states (set_state a st σ) !! a = Some st.
Proof.
  intros [st' Hst]. simpl. apply list_lookup_insert_eq.
  by eapply lookup_lt_Some.
Qed.

Lemma idle_lookup a σ :
  idle a σ →
  states σ !! a = Some {| Mu := {| writer := false; readers := O |};
                          ResponseTypeValue := response_ptr a σ |}.
Proof. intros (v & Hst & _). unfold response_ptr. by rewrite Hst. Qed.

Lemma idle_cell a σ p :
  idle a σ → response_ptr a σ = Some p → is_Some (cells σ !! p).
Proof.
  intros (v & Hst & Hv) Hp. unfold response_ptr in Hp. rewrite Hst in Hp.
  simpl in Hp. by apply Hv.
Qed.

(** ** The response state, one call at a time *)

Lemma run_ResponseType_nil env σ : run env (ResponseType None) σ = Done None σ.
Proof. done. Qed.

Lemma run_ResponseType_empty env a σ :
  idle a σ → response_ptr a σ = None →
  run env (ResponseType (Some a)) σ = Done None σ.
Proof.
  intros Hidle Hp. pose proof (idle_lookup _ _ Hidle) as Hst. rewrite Hp in Hst.
  simpl. unfold do_rlock. rewrite Hst. simpl.
  unfold do_get. rewrite lookup_set_state by eauto. simpl.
  unfold do_runlock. rewrite lookup_set_state by eauto. simpl.
  by rewrite set_state_twice, set_state_same.
Qed.

Lemma run_ResponseType_set env a σ p k :
  idle a σ → response_ptr a σ = Some p → cells σ !! p = Some k →
  run env (ResponseType (Some a)) σ =
  Done (Some (length (cells σ))) (set_cells (cells σ ++ [k]) σ).
Proof.
  intros Hidle Hp Hk. pose proof (idle_lookup _ _ Hidle) as Hst. rewrite Hp in Hst.
  simpl. unfold do_rlock. rewrite Hst. simpl.
  unfold do_get. rewrite lookup_set_state by eauto. simpl.
  unfold do_deref. simpl. rewrite Hk. simpl.
  unfold do_runlock. simpl. rewrite list_lookup_insert_eq by (by eapply lookup_lt_Some).
  simpl. unfold set_state, set_cells. simpl. f_equal. f_equal.
  rewrite list_insert_insert_eq. by apply list_insert_id.
Qed.

Lemma run_respond_commit_empty env a k σ :
  idle a σ → response_ptr a σ = None →
  run env (respond_commit (Some a) k) σ = Done None (commit a k σ).
Proof.
  intros Hidle Hp. pose proof (idle_lookup _ _ Hidle) as Hst. rewrite Hp in Hst.
  simpl. unfold do_lock. rewrite Hst. simpl.
  unfold do_get. rewrite lookup_set_state by eauto. simpl.
  unfold do_set. simpl. rewrite list_lookup_insert_eq by (by eapply lookup_lt_Some).
  simpl. unfold do_unlock. simpl.
  rewrite list_lookup_insert_eq
    by (rewrite length_insert; by eapply lookup_lt_Some).
  simpl. unfold commit, set_state, set_cells. simpl.
  by rewrite !list_insert_insert_eq.
Qed.

Lemma run_respond_commit_set env a k σ p :
  idle a σ → response_ptr a σ = Some p →
  run env (respond_commit (Some a) k) σ = Done (Some ErrInteractionAlreadyReplied) σ.
Proof.
  intros Hidle Hp. pose proof (idle_lookup _ _ Hidle) as Hst. rewrite Hp in Hst.
  simpl. unfold do_lock. rewrite Hst. simpl.
  unfold do_get. rewrite lookup_set_state by eauto. simpl.
  unfold do_unlock. rewrite lookup_set_state by eauto. simpl.
  by rewrite set_state_twice, set_state_same.
Qed.

(** What the world keeps when something is appended to it. *)

Lemma idle_push_call a c σ : idle a σ → idle a (push_call c σ).
Proof. done. Qed.

Lemma idle_new_cell a k σ : idle a σ → idle a (set_cells (cells σ ++ [k]) σ).
Proof.
  intros (v & Hst & Hv). exists v. split; [done|]. simpl.
  intros p Hp. destruct (Hv p Hp) as [x Hx]. exists x.
  by apply lookup_app_l_Some.
Qed.

Lemma idle_commit a k σ : idle a σ → idle a (commit a k σ).
Proof.
  intros (v & Hst & Hv). exists (Some (length (cells σ))). split.
  - unfold commit. apply lookup_set_state. simpl. eauto.
  - intros p [= <-]. unfold commit. simpl. exists k.
    by rewrite lookup_app_r, Nat.sub_diag.
Qed.

Lemma response_ptr_commit a k σ :
  idle a σ → response_ptr a (commit a k σ) = Some (length (cells σ)).
Proof.
  intros (v & Hst & _). unfold response_ptr, commit.
  rewrite lookup_set_state by (simpl; eauto). done.
Qed.

Lemma stored_kind_commit a k σ : idle a σ → stored_kind a (commit a k σ) = Some k.
Proof.
  intros Hidle. unfold stored_kind. rewrite response_ptr_commit by done. simpl.
  unfold commit. simpl. by rewrite lookup_app_r, Nat.sub_diag.
Qed.

(** ** The responder, one call at a time *)

Lemma run_invoke_replied env f a responseType data opts σ p :
  rf_responseState f = Some a →
  idle a σ → response_ptr a σ = Some p →
  ∃ k0, cells σ !! p = Some k0 ∧
        run env (invoke f responseType data opts) σ =
        Done (Some ErrInteractionAlreadyReplied) (set_cells (cells σ ++ [k0]) σ).
Proof.
  intros Hf Hidle Hp. destruct (idle_cell _ _ _ Hidle Hp) as [k0 Hk0].
  exists k0. split; [done|]. unfold invoke. rewrite run_bind, Hf.
  by rewrite (run_ResponseType_set _ _ _ _ _ Hidle Hp Hk0).
Qed.

Lemma run_invoke_empty env f a responseType data opts σ :
  rf_responseState f = Some a →
  idle a σ → response_ptr a σ = None →
  run env (invoke f responseType data opts) σ =
  let c := outbound_call f {| Type_ := responseType; Data := data |} opts in
  match env (calls σ) c with
  | Some e => Done (Some e) (push_call c σ)
  | None => Done None (commit a responseType (push_call c σ))
  end.
Proof.
  intros Hf Hidle Hp. unfold invoke. rewrite run_bind, Hf.
  rewrite (run_ResponseType_empty _ _ _ Hidle Hp). cbv zeta.
  rewrite run_bind. simpl.
  destruct (env (calls σ) _) as [e|]; [done|].
  by apply run_respond_commit_empty.
Qed.

(** ** Dispatch *)

Lemma run_handleInteraction env client sequenceNumber shardID respondFunc interaction σ :
  run env (handleInteraction client sequenceNumber shardID respondFunc interaction) σ =
  Done () (handled client sequenceNumber shardID respondFunc interaction σ).
Proof. by destruct interaction. Qed.

Lemma handled_dispatched client sequenceNumber shardID respondFunc interaction σ :
  let ev s :=
    built_event s client sequenceNumber shardID respondFunc interaction (length (states σ)) in
  dispatched (handled client sequenceNumber shardID respondFunc interaction σ) =
  dispatched σ ++
    (client, ev InteractionCreate) ::
    match variant_struct interaction with
    | Some s => [(client, ev s)]
    | None => []
    end.
Proof. destruct interaction; simpl; by rewrite <- ?app_assoc. Qed.

Lemma handled_states client sequenceNumber shardID respondFunc interaction σ :
  states (handled client sequenceNumber shardID respondFunc interaction σ) =
  states σ ++ [{| Mu := {| writer := false; readers := O |}; ResponseTypeValue := None |}].
Proof. by destruct interaction. Qed.

Lemma handled_cells client sequenceNumber shardID respondFunc interaction σ :
  cells (handled client sequenceNumber shardID respondFunc interaction σ) = cells σ.
Proof. by destruct interaction. Qed.

Lemma handled_calls client sequenceNumber shardID respondFunc interaction σ :
  calls (handled client sequenceNumber shardID respondFunc interaction σ) = calls σ.
Proof. by destruct interaction. Qed.

Lemma handled_fresh client sequenceNumber shardID respondFunc interaction σ :
  let σ' := handled client sequenceNumber shardID respondFunc interaction σ in
  idle (length (states σ)) σ' ∧ response_ptr (length (states σ)) σ' = None.
Proof.
  cbv zeta. unfold idle, response_ptr. rewrite handled_states.
  rewrite lookup_app_r, Nat.sub_diag by done. simpl. split; [|done].
  exists None. by split.
Qed.

Lemma new_events_handled client sequenceNumber shardID respondFunc interaction σ c e i :
  new_events σ (handled client sequenceNumber shardID respondFunc interaction σ) !! i
    = Some (c, e) →
  ∃ s, e = built_event s client sequenceNumber shardID respondFunc interaction
             (length (states σ)).
Proof.
  unfold new_events. rewrite handled_dispatched. cbv zeta.
  rewrite drop_app_length. intros Hi.
  destruct i as [|i]; simpl in Hi; [injection Hi as <- <-; eauto|].
  destruct (variant_struct interaction); [|done].
  destruct i as [|i]; simpl in Hi; [injection Hi as <- <-; eauto|done].
Qed.

(** ** The responder: rejection, failure, transport *)

(** C3. When the response state already records a reply kind, the responder
    returns [ErrInteractionAlreadyReplied] at once: no outbound call is made,
    neither to the direct sink nor to the request client, and the response
    state, the pointer it stores and the kind it records are unchanged. *)
Theorem respond_already_replied env f a responseType data opts σ p :
  rf_responseState f = Some a →
  idle a σ →
  response_ptr a σ = Some p →
  ∃ σ', run env (invoke f responseType data opts) σ
          = Done (Some ErrInteractionAlreadyReplied) σ'
        ∧ calls σ' = calls σ
        ∧ states σ' = states σ
        ∧ response_ptr a σ' = Some p
        ∧ stored_kind a σ' = stored_kind a σ
        ∧ is_Some (stored_kind a σ').
Proof.
  intros Hf Hidle Hp.
  destruct (run_invoke_replied env f a responseType data opts σ p Hf Hidle Hp)
    as (k0 & Hk0 & Hrun).
  eexists. split; [exact Hrun|].
  assert (Hk : stored_kind a (set_cells (cells σ ++ [k0]) σ) = stored_kind a σ).
  { unfold stored_kind. change (response_ptr a (set_cells (cells σ ++ [k0]) σ))
      with (response_ptr a σ). rewrite Hp. simpl. rewrite Hk0. by apply lookup_app_l_Some. }
  repeat split; try done.
  rewrite Hk. unfold stored_kind. rewrite Hp. simpl. eauto.
Qed.

Lemma respond_already_replied_witness :
  ∃ σ', run env_ok (invoke command_responder 4 None []) replied_world
          = Done (Some ErrInteractionAlreadyReplied) σ'
        ∧ calls σ' = calls replied_world
        ∧ states σ' = states replied_world
        ∧ response_ptr 0%nat σ' = Some 0%nat
        ∧ stored_kind 0%nat σ' = stored_kind 0%nat replied_world
        ∧ is_Some (stored_kind 0%nat σ').
Proof.
  apply (respond_already_replied env_ok command_responder 0%nat 4 None [] replied_world 0%nat).
  - reflexivity.
  - eexists. split; [reflexivity|]. intros p [= <-]. by eexists.
  - reflexivity.
Defined.

(** C4. When no reply is recorded and the outbound call returns an error,
    the responder returns that very error and records nothing: the response
    state is unchanged and still empty, and a later call of a responder of
    the same state, with any kind, succeeds and records its kind once its
    own outbound call succeeds. *)
Theorem respond_transport_failure env f g a responseType data opts
    responseType2 data2 opts2 σ e :
  rf_responseState f = Some a →
  rf_responseState g = Some a →
  idle a σ →
  response_ptr a σ = None →
  env (calls σ) (outbound_call f {| Type_ := responseType; Data := data |} opts) = Some e →
  ∃ σ', run env (invoke f responseType data opts) σ = Done (Some e) σ'
        ∧ states σ' = states σ
        ∧ stored_kind a σ' = None
        ∧ (env (calls σ')
             (outbound_call g {| Type_ := responseType2; Data := data2 |} opts2) = None →
           ∃ σ'', run env (invoke g responseType2 data2 opts2) σ' = Done None σ''
                  ∧ stored_kind a σ'' = Some responseType2).
Proof.
  intros Hf Hg Hidle Hp He.
  pose proof (run_invoke_empty env f a responseType data opts σ Hf Hidle Hp) as Hrun.
  cbv zeta in Hrun. rewrite He in Hrun.
  eexists. split; [exact Hrun|]. split; [done|]. split.
  { unfold stored_kind.
    change (response_ptr a (push_call _ σ)) with (response_ptr a σ). by rewrite Hp. }
  intros Hok.
  set (σ' := push_call _ σ) in *.
  assert (Hidle' : idle a σ') by by apply idle_push_call.
  pose proof (run_invoke_empty env g a responseType2 data2 opts2 σ' Hg Hidle' Hp) as Hrun2.
  cbv zeta in Hrun2. rewrite Hok in Hrun2.
  eexists. split; [exact Hrun2|].
  apply stored_kind_commit. by apply idle_push_call.
Qed.

Lemma respond_transport_failure_witness :
  ∃ σ', run env_flaky (invoke command_responder 5 None []) command_world
          = Done (Some (ErrOther "connection reset")) σ'
        ∧ states σ' = states command_world
        ∧ stored_kind 0%nat σ' = None
        ∧ (env_flaky (calls σ')
             (outbound_call command_responder {| Type_ := 4; Data := None |} []) = None →
           ∃ σ'', run env_flaky (invoke command_responder 4 None []) σ' = Done None σ''
                  ∧ stored_kind 0%nat σ'' = Some 4).
Proof.
  apply (respond_transport_failure env_flaky command_responder command_responder 0%nat
           5 None [] 4 None [] command_world (ErrOther "connection reset")).
  - reflexivity.
  - reflexivity.
  - eexists. split; [reflexivity|]. intros p [=].
  - reflexivity.
  - reflexivity.
Defined.

(** C9. A responder call that finds no reply recorded makes exactly one
    outbound call: to the direct response sink with the built response when
    a sink was supplied, and then not to the request client; otherwise to
    the request client's [CreateInteractionResponse] with the interaction's
    ID and token, the same response and the caller's options.  The error
    the responder returns, if any, is the one that call returned. *)
Theorem respond_outbound env client respondFunc interaction a responseType data opts σ :
  idle a σ →
  response_ptr a σ = None →
  let response := {| Type_ := responseType; Data := data |} in
  let c :=
    match respondFunc with
    | Some sink => CallRespondFunc sink response
    | None =>
        CallCreateInteractionResponse client (ID (interaction_base interaction))
          (Token (interaction_base interaction)) response opts
    end in
  ∃ σ', run env (invoke (respond client respondFunc interaction (Some a))
                   responseType data opts) σ
          = Done (env (calls σ) c) σ'
        ∧ calls σ' = calls σ ++ [c].
Proof.
  intros Hidle Hp response c.
  pose proof (run_invoke_empty env (respond client respondFunc interaction (Some a)) a
                responseType data opts σ eq_refl Hidle Hp) as Hrun.
  cbv zeta in Hrun.
  assert (Hc : outbound_call (respond client respondFunc interaction (Some a))
                 {| Type_ := responseType; Data := data |} opts = c)
    by (by destruct respondFunc).
  rewrite Hc in Hrun. rewrite Hrun.
  destruct (env (calls σ) c); eexists; (split; [reflexivity|]); by destruct respondFunc.
Qed.

Lemma respond_outbound_witness :
  ∃ σ', run env_ok (invoke (respond 1%nat (Some 3%nat) (AutocompleteInteraction sample_base)
                              (Some 0%nat)) 8 None []) autocomplete_world
          = Done None σ'
        ∧ calls σ' = [CallRespondFunc 3%nat {| Type_ := 8; Data := None |}].
Proof.
  apply (respond_outbound env_ok 1%nat (Some 3%nat) (AutocompleteInteraction sample_base)
           0%nat 8 None [] autocomplete_world).
  - eexists. split; [reflexivity|]. intros p [=].
  - reflexivity.
Defined.

(** ** The reads of the response state *)

Lemma run_deferred_check env a σ (k : InteractionResponseType) :
  idle a σ →
  ∃ σ', run env (responseType ← ResponseType (Some a);
                 match responseType with
                 | None => mret false
                 | Some p => v ← deref p; mret (bool_decide (v = k))
                 end) σ
          = Done (bool_decide (stored_kind a σ = Some k)) σ'
        ∧ states σ' = states σ
        ∧ (∀ p v, cells σ !! p = Some v → cells σ' !! p = Some v)
        ∧ calls σ' = calls σ.
Proof.
  intros Hidle. rewrite run_bind. unfold stored_kind.
  destruct (response_ptr a σ) as [p|] eqn:Hp.
  - destruct (idle_cell _ _ _ Hidle Hp) as [k0 Hk0].
    rewrite (run_ResponseType_set _ _ _ _ _ Hidle Hp Hk0). simpl.
    unfold do_deref. simpl. rewrite lookup_app_r, Nat.sub_diag by done. simpl.
    rewrite Hk0. simpl. eexists. split.
    { f_equal. apply bool_decide_ext. split; congruence. }
    simpl. split; [done|]. split; [|done].
    intros. by apply lookup_app_l_Some.
  - rewrite (run_ResponseType_empty _ _ _ Hidle Hp). simpl.
    exists σ. done.
Qed.

(** C8. [IsDefferedReply] returns true exactly when the stored kind is the
    deferred-create-message kind, [IsDefferedUpdate] returns true exactly
    when it is the deferred-update-message kind, and both return false
    when no reply kind is recorded. *)
Theorem deferred_predicates `{DiscordConsts} env a σ :
  idle a σ →
  ∃ b1 σ1 b2 σ2,
    run env (IsDefferedReply (Some a)) σ = Done b1 σ1
    ∧ (b1 = true ↔ stored_kind a σ = Some InteractionResponseTypeDeferredCreateMessage)
    ∧ run env (IsDefferedUpdate (Some a)) σ = Done b2 σ2
    ∧ (b2 = true ↔ stored_kind a σ = Some InteractionResponseTypeDeferredUpdateMessage)
    ∧ (stored_kind a σ = None → b1 = false ∧ b2 = false).
Proof.
  intros Hidle.
  destruct (run_deferred_check env a σ InteractionResponseTypeDeferredCreateMessage Hidle)
    as (σ1 & H1 & _).
  destruct (run_deferred_check env a σ InteractionResponseTypeDeferredUpdateMessage Hidle)
    as (σ2 & H2 & _).
  eexists _, σ1, _, σ2. split; [exact H1|]. split; [apply bool_decide_eq_true|].
  split; [exact H2|]. split; [apply bool_decide_eq_true|].
  intros ->. by split.
Qed.

Lemma deferred_predicates_witness :
  ∃ b1 σ1 b2 σ2,
    run env_ok (@IsDefferedReply sample_consts (Some 0%nat)) replied_world = Done b1 σ1
    ∧ (b1 = true ↔ stored_kind 0%nat replied_world = Some 5)
    ∧ run env_ok (@IsDefferedUpdate sample_consts (Some 0%nat)) replied_world = Done b2 σ2
    ∧ (b2 = true ↔ stored_kind 0%nat replied_world = Some 6)
    ∧ (stored_kind 0%nat replied_world = None → b1 = false ∧ b2 = false).
Proof.
  apply (@deferred_predicates sample_consts env_ok 0%nat replied_world).
  eexists. split; [reflexivity|]. intros p [= <-]. by eexists.
Defined.

(** C10. On a nil [*InteractionResponseState], [ResponseType] returns nil
    and the two predicates return false, and nothing is dereferenced: the
    world is untouched.  On a state that stores a kind, [ResponseType]
    returns the address of a new cell holding a copy of the kind: the address
    is not the stored one and was not in use before, and an assignment
    through it leaves the stored pointer and the stored kind as they were. *)
Theorem response_type_nil_and_copy `{DiscordConsts} env σ :
  run env (ResponseType None) σ = Done None σ
  ∧ run env (IsDefferedReply None) σ = Done false σ
  ∧ run env (IsDefferedUpdate None) σ = Done false σ
  ∧ ∀ a p k,
      idle a σ → response_ptr a σ = Some p → cells σ !! p = Some k →
      ∃ q σ', run env (ResponseType (Some a)) σ = Done (Some q) σ'
              ∧ q ≠ p
              ∧ cells σ !! q = None
              ∧ cells σ' !! q = Some k
              ∧ ∀ v, cells (assign q v σ') !! q = Some v
                     ∧ response_ptr a (assign q v σ') = Some p
                     ∧ stored_kind a (assign q v σ') = Some k.
Proof.
  repeat split; try done.
  intros a p k Hidle Hp Hk.
  rewrite (run_ResponseType_set _ _ _ _ _ Hidle Hp Hk).
  pose proof (lookup_lt_Some _ _ _ Hk) as Hlt.
  eexists _, _. split; [reflexivity|]. split; [lia|]. split.
  { by apply lookup_ge_None. }
  split.
  { simpl. by rewrite lookup_app_r, Nat.sub_diag. }
  intros v. simpl.
  assert (Hq : (<[length (cells σ) := v]> (cells σ ++ [k])) !! p = Some k).
  { rewrite list_lookup_insert_ne by lia. by apply lookup_app_l_Some. }
  split; [|split].
  - apply list_lookup_insert_eq. rewrite length_app. simpl. lia.
  - exact Hp.
  - unfold stored_kind.
    change (response_ptr a (assign _ v _)) with (response_ptr a σ).
    rewrite Hp. exact Hq.
Qed.

Lemma response_type_nil_and_copy_witness :
  ∃ q σ', run env_ok (ResponseType (Some 0%nat)) replied_world = Done (Some q) σ'
          ∧ q ≠ 0%nat
          ∧ cells replied_world !! q = None
          ∧ cells σ' !! q = Some 5
          ∧ ∀ v, cells (assign q v σ') !! q = Some v
                 ∧ response_ptr 0%nat (assign q v σ') = Some 0%nat
                 ∧ stored_kind 0%nat (assign q v σ') = Some 5.
Proof.
  apply (proj2 (proj2 (proj2
           (@response_type_nil_and_copy sample_consts env_ok replied_world)))
           0%nat 0%nat 5).
  - eexists. split; [reflexivity|]. intros p [= <-]. by eexists.
  - reflexivity.
  - reflexivity.
Defined.

(** ** Two calls of the responder *)

Lemma invoke_twice env f g a k1 d1 o1 k2 d2 o2 σ :
  rf_responseState f = Some a →
  rf_responseState g = Some a →
  idle a σ →
  response_ptr a σ = None →
  env (calls σ) (outbound_call f {| Type_ := k1; Data := d1 |} o1) = None →
  ∃ σ1 σ2, run env (invoke f k1 d1 o1) σ = Done None σ1
           ∧ run env (invoke g k2 d2 o2) σ1 = Done (Some ErrInteractionAlreadyReplied) σ2
           ∧ calls σ2 = calls σ ++ [outbound_call f {| Type_ := k1; Data := d1 |} o1]
           ∧ stored_kind a σ2 = Some k1.
Proof.
  intros Hf Hg Hidle Hp Hok.
  pose proof (run_invoke_empty env f a k1 d1 o1 σ Hf Hidle Hp) as Hrun.
  cbv zeta in Hrun. rewrite Hok in Hrun.
  set (c := outbound_call f _ o1) in *.
  assert (Hidle1 : idle a (commit a k1 (push_call c σ)))
    by by apply idle_commit, idle_push_call.
  assert (Hp1 : response_ptr a (commit a k1 (push_call c σ)) = Some (length (cells σ)))
    by by apply (response_ptr_commit a k1 (push_call c σ)), idle_push_call.
  destruct (run_invoke_replied env g a k2 d2 o2 _ _ Hg Hidle1 Hp1) as (k0 & Hk0 & Hrun2).
  eexists _, _. split; [exact Hrun|]. split; [exact Hrun2|]. split; [done|].
  unfold stored_kind.
  change (response_ptr a (set_cells _ ?w)) with (response_ptr a w).
  rewrite Hp1. simpl. rewrite <- app_assoc.
  by rewrite lookup_app_r, Nat.sub_diag.
Qed.

(** C1. Take any two of the events that [handleInteraction] dispatched for
    one interaction, generic or variant-specific, in either order, and any
    two reply kinds.  Calling the responder of the first and then the
    responder of the second, the outbound call succeeding, gives one success
    and one [ErrInteractionAlreadyReplied]: the first call returns nil, the
    second the error, and one outbound call has been made. *)
Theorem respond_twice env client sequenceNumber shardID respondFunc interaction
    σ0 σ i1 c1 e1 i2 c2 e2 k1 d1 o1 k2 d2 o2 :
  run env (handleInteraction client sequenceNumber shardID respondFunc interaction) σ0
    = Done () σ →
  new_events σ0 σ !! i1 = Some (c1, e1) →
  new_events σ0 σ !! i2 = Some (c2, e2) →
  env (calls σ) (outbound_call (Respond e1) {| Type_ := k1; Data := d1 |} o1) = None →
  ∃ σ1 σ2, run env (invoke (Respond e1) k1 d1 o1) σ = Done None σ1
           ∧ run env (invoke (Respond e2) k2 d2 o2) σ1
               = Done (Some ErrInteractionAlreadyReplied) σ2
           ∧ length (new_calls σ σ2) = 1%nat.
Proof.
  rewrite run_handleInteraction. intros [= <-] H1 H2 Hok.
  apply new_events_handled in H1 as [s1 ->].
  apply new_events_handled in H2 as [s2 ->].
  destruct (handled_fresh client sequenceNumber shardID respondFunc interaction σ0)
    as [Hidle Hp].
  destruct (invoke_twice env
              (Respond (built_event s1 client sequenceNumber shardID respondFunc interaction
                          (length (states σ0))))
              (Respond (built_event s2 client sequenceNumber shardID respondFunc interaction
                          (length (states σ0))))
              (length (states σ0)) k1 d1 o1 k2 d2 o2 _
              eq_refl eq_refl Hidle Hp Hok) as (σ1 & σ2 & Hr1 & Hr2 & Hc & _).
  exists σ1, σ2. split; [exact Hr1|]. split; [exact Hr2|].
  unfold new_calls. rewrite Hc. by rewrite drop_app_length.
Qed.

Lemma respond_twice_witness :
  ∃ σ1 σ2,
    run env_ok (invoke (Respond (built_event ApplicationCommandInteractionCreate 1%nat 42 0
                                   None (ApplicationCommandInteraction sample_base) 0%nat))
                  5 None []) command_world = Done None σ1
    ∧ run env_ok (invoke (Respond (built_event InteractionCreate 1%nat 42 0
                                     None (ApplicationCommandInteraction sample_base) 0%nat))
                    0 None []) σ1 = Done (Some ErrInteractionAlreadyReplied) σ2
    ∧ length (new_calls command_world σ2) = 1%nat.
Proof.
  apply (respond_twice env_ok 1%nat 42 0 None (ApplicationCommandInteraction sample_base)
           empty_world command_world 1%nat 1%nat _ 0%nat 1%nat _ 5 None [] 0 None []).
  - reflexivity.
  - reflexivity.
  - reflexivity.
  - reflexivity.
Defined.

(** C6. [handleInteraction] always returns.  It dispatches the generic
    [InteractionCreate] event first, then the one event of the variant when
    the interaction is of one of the four known variants and nothing more;
    for any other interaction it dispatches nothing after the generic event
    and logs one error instead.  Every event it dispatches carries the same
    response state, newly allocated, and the same responder, bound to that
    state. *)
Theorem handleInteraction_dispatch env client sequenceNumber shardID respondFunc
    interaction σ :
  let a := length (states σ) in
  let ev s := built_event s client sequenceNumber shardID respondFunc interaction a in
  ∃ σ', run env (handleInteraction client sequenceNumber shardID respondFunc interaction) σ
          = Done () σ'
        ∧ dispatched σ' =
            dispatched σ ++
              (client, ev InteractionCreate) ::
              match interaction with
              | ApplicationCommandInteraction _ =>
                  [(client, ev ApplicationCommandInteractionCreate)]
              | ComponentInteraction _ => [(client, ev ComponentInteractionCreate)]
              | AutocompleteInteraction _ => [(client, ev AutocompleteInteractionCreate)]
              | ModalSubmitInteraction _ => [(client, ev ModalSubmitInteractionCreate)]
              | OtherInteraction _ _ => []
              end
        ∧ logs σ' =
            logs σ ++
              match interaction with
              | OtherInteraction goType _ =>
                  [{| log_client := client; log_msg := "unknown interaction";
                      log_attrs := [("type", goType)] |}]
              | _ => []
              end
        ∧ (∀ i1 c1 e1 i2 c2 e2,
             new_events σ σ' !! i1 = Some (c1, e1) →
             new_events σ σ' !! i2 = Some (c2, e2) →
             ResponseState e1 = Some a
             ∧ ResponseState e2 = ResponseState e1
             ∧ Respond e2 = Respond e1
             ∧ rf_responseState (Respond e1) = Some a)
        ∧ states σ !! a = None
        ∧ idle a σ'
        ∧ stored_kind a σ' = None.
Proof.
  intros a ev. eexists. split; [apply run_handleInteraction|].
  split; [|split; [|split; [|split; [|split]]]].
  - destruct interaction; simpl; by rewrite <- ?app_assoc.
  - destruct interaction; simpl; by rewrite ?app_nil_r.
  - intros i1 c1 e1 i2 c2 e2 H1 H2.
    apply new_events_handled in H1 as [s1 ->].
    apply new_events_handled in H2 as [s2 ->]. done.
  - by apply lookup_ge_None.
  - apply handled_fresh.
  - unfold stored_kind. subst a.
    by rewrite (proj2 (handled_fresh client sequenceNumber shardID respondFunc
                         interaction σ)).
Qed.

Lemma handleInteraction_dispatch_witness :
  ∃ σ', run env_ok (handleInteraction 1%nat 42 0 None
                      (OtherInteraction "discord.PingInteraction" sample_base)) empty_world
          = Done () σ'
        ∧ (dispatched σ').*1 = [1%nat]
        ∧ (ev_struct <$> (dispatched σ').*2) = [InteractionCreate]
        ∧ logs σ' = [{| log_client := 1%nat; log_msg := "unknown interaction";
                        log_attrs := [("type", "discord.PingInteraction")] |}].
Proof.
  destruct (handleInteraction_dispatch env_ok 1%nat 42 0 None
              (OtherInteraction "discord.PingInteraction" sample_base) empty_world)
    as (σ' & Hrun & Hd & Hl & _).
  exists σ'. split; [exact Hrun|]. rewrite Hd, Hl. by repeat split.
Defined.

(** ** The stored kind is written once *)

Lemma stored_kind_lookup a σ p k :
  response_ptr a σ = Some p → cells σ !! p = Some k → stored_kind a σ = Some k.
Proof. intros Hp Hk. unfold stored_kind. by rewrite Hp. Qed.

Lemma run_op_idle `{DiscordConsts} env a op σ :
  idle a σ →
  ∃ σ', run env (op_prog a op) σ = Done () σ' ∧ idle a σ'
        ∧ ∀ p k, response_ptr a σ = Some p → cells σ !! p = Some k →
                 response_ptr a σ' = Some p ∧ cells σ' !! p = Some k.
Proof.
  intros Hidle.
  assert (Hread : ∀ k0, ∃ σ',
    run env ((responseType ← ResponseType (Some a);
              match responseType with
              | None => mret false
              | Some p => v ← deref p; mret (bool_decide (v = k0))
              end);; mret ()) σ = Done () σ' ∧ idle a σ'
    ∧ ∀ p k, response_ptr a σ = Some p → cells σ !! p = Some k →
             response_ptr a σ' = Some p ∧ cells σ' !! p = Some k).
  { intros k0. destruct (run_deferred_check env a σ k0 Hidle) as (σ' & Hrun & Hs & Hc & _).
    exists σ'. rewrite run_bind, Hrun. split; [done|].
    assert (Hptr : response_ptr a σ' = response_ptr a σ)
      by (unfold response_ptr; by rewrite Hs).
    split.
    - destruct Hidle as (v & Hst & Hv). exists v. rewrite Hs. split; [done|].
      intros p Hp. destruct (Hv p Hp) as [x Hx]. exists x. by apply Hc.
    - intros p k Hp Hk. rewrite Hptr. split; [done|by apply Hc]. }
  destruct op as [client respondFunc interaction responseType data opts| | |].
  - unfold op_prog. rewrite run_bind.
    destruct (response_ptr a σ) as [p|] eqn:Hp.
    + destruct (run_invoke_replied env (respond client respondFunc interaction (Some a)) a
                  responseType data opts σ p eq_refl Hidle Hp) as (k0 & Hk0 & Hrun).
      rewrite Hrun. eexists. split; [done|]. split; [by apply idle_new_cell|].
      intros p' k' [= <-] Hk'. split; [done|]. simpl. by apply lookup_app_l_Some.
    + rewrite (run_invoke_empty env (respond client respondFunc interaction (Some a)) a
                 responseType data opts σ eq_refl Hidle Hp). cbv zeta.
      destruct (env _ _); eexists; (split; [done|]); (split; [|done]).
      * by apply idle_push_call.
      * by apply idle_commit, idle_push_call.
  - unfold op_prog. rewrite run_bind.
    destruct (response_ptr a σ) as [p|] eqn:Hp.
    + destruct (idle_cell _ _ _ Hidle Hp) as [k0 Hk0].
      rewrite (run_ResponseType_set _ _ _ _ _ Hidle Hp Hk0).
      eexists. split; [done|]. split; [by apply idle_new_cell|].
      intros p' k' [= <-] Hk'. split; [done|]. simpl. by apply lookup_app_l_Some.
    + rewrite (run_ResponseType_empty _ _ _ Hidle Hp). by exists σ.
  - apply Hread.
  - apply Hread.
Qed.

Lemma run_ops_idle `{DiscordConsts} env a ops σ :
  idle a σ →
  ∃ σ', run env (ops_prog a ops) σ = Done () σ' ∧ idle a σ'
        ∧ ∀ p k, response_ptr a σ = Some p → cells σ !! p = Some k →
                 response_ptr a σ' = Some p ∧ cells σ' !! p = Some k.
Proof.
  revert σ. induction ops as [|op ops IH]; intros σ Hidle.
  - exists σ. done.
  - destruct (run_op_idle env a op σ Hidle) as (σ1 & Hrun1 & Hidle1 & Hkeep1).
    destruct (IH σ1 Hidle1) as (σ2 & Hrun2 & Hidle2 & Hkeep2).
    exists σ2. change (ops_prog a (op :: ops)) with (op_prog a op;; ops_prog a ops).
    rewrite run_bind, Hrun1. split; [done|]. split; [done|].
    intros p k Hp Hk. destruct (Hkeep1 p k Hp Hk) as [Hp1 Hk1]. by apply Hkeep2.
Qed.

Lemma invoke_success_records env f a responseType data opts σ σ' :
  rf_responseState f = Some a →
  idle a σ →
  run env (invoke f responseType data opts) σ = Done None σ' →
  idle a σ' ∧ ∃ p, response_ptr a σ' = Some p ∧ cells σ' !! p = Some responseType.
Proof.
  intros Hf Hidle Hrun.
  destruct (response_ptr a σ) as [p|] eqn:Hp.
  - destruct (run_invoke_replied env f a responseType data opts σ p Hf Hidle Hp)
      as (k0 & _ & Hrun'). congruence.
  - rewrite (run_invoke_empty env f a responseType data opts σ Hf Hidle Hp) in Hrun.
    cbv zeta in Hrun. destruct (env _ _); [done|]. injection Hrun as <-.
    set (c := outbound_call _ _ _).
    split; [by apply idle_commit, idle_push_call|].
    exists (length (cells σ)). split.
    + by apply (response_ptr_commit a responseType (push_call c σ)), idle_push_call.
    + unfold commit. simpl. by rewrite lookup_app_r, Nat.sub_diag.
Qed.

(** C2. The stored response type is written once.  Whatever sequence of
    responder calls and reads ([ResponseType], [IsDefferedReply],
    [IsDefferedUpdate]) runs on a response state, the sequence runs to its
    end, and a state that stored a kind before it stores the same pointer
    to the same kind after it: the field is neither changed nor reset to
    nil.  After a responder call of kind [k] has returned nil, the state
    records [k], and after any further such sequence [ResponseType] still
    returns a pointer to [k]. *)
Theorem response_type_write_once `{DiscordConsts} env a ops σ :
  idle a σ →
  ∃ σ', run env (ops_prog a ops) σ = Done () σ'
        ∧ idle a σ'
        ∧ (∀ p k, response_ptr a σ = Some p → cells σ !! p = Some k →
                  response_ptr a σ' = Some p ∧ cells σ' !! p = Some k)
        ∧ (∀ f k data opts σ0,
             rf_responseState f = Some a → idle a σ0 →
             run env (invoke f k data opts) σ0 = Done None σ →
             stored_kind a σ = Some k
             ∧ stored_kind a σ' = Some k
             ∧ ∃ q σ'', run env (ResponseType (Some a)) σ' = Done (Some q) σ''
                        ∧ cells σ'' !! q = Some k).
Proof.
  intros Hidle.
  destruct (run_ops_idle env a ops σ Hidle) as (σ' & Hrun & Hidle' & Hkeep).
  exists σ'. split; [done|]. split; [done|]. split; [done|].
  intros f k data opts σ0 Hf Hidle0 Hrun0.
  destruct (invoke_success_records env f a k data opts σ0 σ Hf Hidle0 Hrun0)
    as (_ & p & Hp & Hk).
  destruct (Hkeep p k Hp Hk) as [Hp' Hk'].
  split; [by eapply stored_kind_lookup|]. split; [by eapply stored_kind_lookup|].
  rewrite (run_ResponseType_set _ _ _ _ _ Hidle' Hp' Hk').
  eexists _, _. split; [done|]. simpl. by rewrite lookup_app_r, Nat.sub_diag.
Qed.

Lemma response_type_write_once_witness :
  ∃ σ', run env_ok (@ops_prog sample_consts 0%nat sample_ops) replied_world = Done () σ'
        ∧ response_ptr 0%nat σ' = Some 0%nat
        ∧ cells σ' !! 0%nat = Some 5
        ∧ stored_kind 0%nat σ' = Some 5.
Proof.
  assert (Hidle : idle 0%nat replied_world).
  { eexists. split; [reflexivity|]. intros p [= <-]. by eexists. }
  assert (Hidle0 : idle 0%nat command_world).
  { eexists. split; [reflexivity|]. intros p [=]. }
  destruct (@response_type_write_once sample_consts env_ok 0%nat sample_ops replied_world
              Hidle) as (σ' & Hrun & _ & Hkeep & Hsend).
  exists σ'. split; [exact Hrun|].
  destruct (Hkeep 0%nat 5 eq_refl eq_refl) as [Hp Hk].
  destruct (Hsend command_responder 5 None [] command_world eq_refl Hidle0 eq_refl)
    as (_ & Hs & _).
  by repeat split.
Defined.

(** ** The commit after the outbound call *)

Lemma steps_invoke_to_commit env f a responseType data opts σ :
  rf_responseState f = Some a →
  idle a σ →
  response_ptr a σ = None →
  let c := outbound_call f {| Type_ := responseType; Data := data |} opts in
  env (calls σ) c = None →
  steps env 4 (invoke f responseType data opts) σ
    = Next (respond_commit (Some a) responseType) (push_call c σ).
Proof.
  intros Hf Hidle Hp c Hok. pose proof (idle_lookup _ _ Hidle) as Hst.
  rewrite Hp in Hst. unfold invoke. rewrite Hf. simpl.
  unfold do_rlock. rewrite Hst. simpl.
  unfold do_get. rewrite lookup_set_state by eauto. simpl.
  unfold do_runlock. rewrite lookup_set_state by eauto. simpl.
  rewrite set_state_twice, set_state_same by done.
  fold c. by rewrite Hok.
Qed.

(** C5. A responder call that found no reply recorded and whose outbound
    call succeeded stands before the commit.  If by then the response state
    holds a reply kind, recorded by another caller in the meantime, the
    commit returns [ErrInteractionAlreadyReplied] although the outbound call
    succeeded, and it leaves the world, with the recorded kind, as it found
    it. *)
Theorem respond_commit_lost env f a responseType data opts σ :
  rf_responseState f = Some a →
  idle a σ →
  response_ptr a σ = None →
  let c := outbound_call f {| Type_ := responseType; Data := data |} opts in
  env (calls σ) c = None →
  steps env 4 (invoke f responseType data opts) σ
    = Next (respond_commit (Some a) responseType) (push_call c σ)
  ∧ ∀ σ' p,
      idle a σ' → response_ptr a σ' = Some p →
      run env (respond_commit (Some a) responseType) σ'
        = Done (Some ErrInteractionAlreadyReplied) σ'.
Proof.
  intros Hf Hidle Hp c Hok. split.
  - by apply steps_invoke_to_commit.
  - intros σ' p Hidle' Hp'. by eapply run_respond_commit_set.
Qed.

Lemma respond_commit_lost_witness :
  steps env_ok 4 (invoke command_responder 4 None []) command_world
    = Next (respond_commit (Some 0%nat) 4)
        (push_call (outbound_call command_responder {| Type_ := 4; Data := None |} [])
           command_world)
  ∧ run env_ok (respond_commit (Some 0%nat) 4) replied_world
      = Done (Some ErrInteractionAlreadyReplied) replied_world.
Proof.
  destruct (respond_commit_lost env_ok command_responder 0%nat 4 None [] command_world)
    as [Hsteps Hcommit].
  - reflexivity.
  - eexists. split; [reflexivity|]. intros p [=].
  - reflexivity.
  - reflexivity.
  - split; [exact Hsteps|]. apply (Hcommit replied_world 0%nat).
    + eexists. split; [reflexivity|]. intros p [= <-]. by eexists.
    + reflexivity.
Defined.

(** ** The autocomplete view *)

(** C7, as stated, fails: [AutocompleteResult] is not the only reply
    operation of the autocomplete view.  [Acknowledge] is declared on
    [AutocompleteInteractionCreate] too; called on the event of an
    autocomplete interaction it sends the acknowledge kind through the
    responder, returns nil and takes the one reply of the interaction. *)
Lemma autocomplete_acknowledge_replies :
  ∃ reply σ',
    @call_method sample_consts autocomplete_event (Acknowledge_ []) = Some reply
    ∧ method_of (Acknowledge_ []) ≠ mAutocompleteResult
    ∧ run env_ok reply autocomplete_world = Done None σ'
    ∧ stored_kind 0%nat σ' = Some (@InteractionResponseTypeAcknowledge sample_consts)
    ∧ ¬ (∀ m, m ∈ reply_methods AutocompleteInteractionCreate → m = mAutocompleteResult).
Proof.
  eexists _, _. split; [reflexivity|]. split; [done|]. split; [reflexivity|].
  split; [reflexivity|].
  intros Honly. specialize (Honly mAcknowledge). simpl in Honly.
  by specialize (Honly (list_elem_of_here _ _)).
Qed.

(** C7, amended.  The reply methods of the autocomplete view are
    [Acknowledge] and [AutocompleteResult] and no others: [CreateMessage],
    [DeferCreateMessage], [UpdateMessage], [DeferUpdateMessage], [Modal] and
    [LaunchActivity] are not declared on it, and a call of a method compiles
    exactly when it is one of the two.  On the autocomplete event that
    [handleInteraction] dispatches, calling [AutocompleteResult] twice, the
    outbound call succeeding, gives one success and one
    [ErrInteractionAlreadyReplied]. *)
Theorem autocomplete_view `{DiscordConsts} env client sequenceNumber shardID respondFunc i σ
    choices1 opts1 choices2 opts2 :
  let interaction := AutocompleteInteraction i in
  let e := built_event AutocompleteInteractionCreate client sequenceNumber shardID
             respondFunc interaction (length (states σ)) in
  let σ' := handled client sequenceNumber shardID respondFunc interaction σ in
  env (calls σ')
    (outbound_call (Respond e)
       {| Type_ := InteractionResponseTypeAutocompleteResult;
          Data := Some (DataAutocompleteResult choices1) |} opts1) = None →
  reply_methods (ev_struct e) = [mAcknowledge; mAutocompleteResult]
  ∧ (∀ m, m ∈ [mCreateMessage; mDeferCreateMessage; mUpdateMessage; mDeferUpdateMessage;
               mModal; mLaunchActivity] → m ∉ reply_methods (ev_struct e))
  ∧ (∀ c, is_Some (call_method e c)
          ↔ method_of c = mAcknowledge ∨ method_of c = mAutocompleteResult)
  ∧ new_events σ σ' !! 1%nat = Some (client, e)
  ∧ ∃ σ1 σ2,
      run env (AutocompleteResult e choices1 opts1) σ' = Done None σ1
      ∧ run env (AutocompleteResult e choices2 opts2) σ1
          = Done (Some ErrInteractionAlreadyReplied) σ2.
Proof.
  intros interaction e σ' Hok. split; [done|]. split.
  { intros m Hm Hin. simpl in Hin.
    rewrite !elem_of_cons, elem_of_nil in Hin.
    rewrite !elem_of_cons, elem_of_nil in Hm.
    destruct Hin as [->|[->|[]]]; intuition discriminate. }
  split.
  { intros c. unfold call_method.
    assert (Hiff : method_of c ∈ reply_methods (ev_struct e)
                   ↔ method_of c = mAcknowledge ∨ method_of c = mAutocompleteResult).
    { simpl. rewrite !elem_of_cons, elem_of_nil. tauto. }
    case_bool_decide as Hd.
    - split; [intros _; by apply Hiff|eauto].
    - split; [by intros []|]. intros Hm. by apply Hiff in Hm. }
  split.
  { unfold new_events, σ'. rewrite handled_dispatched. cbv zeta.
    by rewrite drop_app_length. }
  destruct (handled_fresh client sequenceNumber shardID respondFunc interaction σ)
    as [Hidle Hp].
  destruct (invoke_twice env (Respond e) (Respond e) (length (states σ))
              InteractionResponseTypeAutocompleteResult
              (Some (DataAutocompleteResult choices1)) opts1
              InteractionResponseTypeAutocompleteResult
              (Some (DataAutocompleteResult choices2)) opts2 σ'
              eq_refl eq_refl Hidle Hp Hok) as (σ1 & σ2 & Hr1 & Hr2 & _).
  by exists σ1, σ2.
Qed.

Lemma autocomplete_view_witness :
  ∃ σ1 σ2,
    run env_ok (@AutocompleteResult sample_consts autocomplete_event
                  [{| choice_Name := "one"; choice_Value := "1" |}] []) autocomplete_world
      = Done None σ1
    ∧ run env_ok (@AutocompleteResult sample_consts autocomplete_event [] []) σ1
        = Done (Some ErrInteractionAlreadyReplied) σ2.
Proof.
  apply (@autocomplete_view sample_consts env_ok 1%nat 42 0 (Some 3%nat) sample_base
           empty_world [{| choice_Name := "one"; choice_Value := "1" |}] [] [] []).
  reflexivity.
Defined.

(** ** Goroutines: the invariant of the pool *)

Lemma tally_insert f gs i g g' :
  gs !! i = Some g →
  (tally f (<[i := g']> gs) + f g = tally f gs + f g')%nat.
Proof.
  revert i. induction gs as [|x gs IH]; intros i Hi; [done|].
  destruct i as [|i]; simpl in *.
  - injection Hi as ->. lia.
  - specialize (IH i Hi). lia.
Qed.

Lemma tally_lookup_le f gs i g : gs !! i = Some g → (f g ≤ tally f gs)%nat.
Proof.
  revert i. induction gs as [|x gs IH]; intros i Hi; [done|].
  destruct i as [|i]; simpl in *.
  - injection Hi as ->. lia.
  - specialize (IH i Hi). lia.
Qed.

Lemma tally_lookup2_le f gs i j g g' :
  i ≠ j → gs !! i = Some g → gs !! j = Some g' → (f g + f g' ≤ tally f gs)%nat.
Proof.
  revert i j. induction gs as [|x gs IH]; intros i j Hij Hi Hj; [done|].
  destruct i as [|i], j as [|j]; simpl in *; try done.
  - injection Hi as ->. pose proof (tally_lookup_le f gs j g' Hj). lia.
  - injection Hj as ->. pose proof (tally_lookup_le f gs i g Hi). lia.
  - assert (i ≠ j) by congruence. pose proof (IH i j ltac:(done) Hi Hj). lia.
Qed.

(** A program that keeps to the discipline keeps to it when more cells
    are allocated. *)
Lemma staged_mono a n n' p s m :
  (n ≤ n')%nat → staged a n p s m → staged a n' p s m.
Proof.
  revert n n' s m.
  induction p as [r|msg|x k IH|x k IH|x k IH|x k IH|x k IH|x v k IH|q k IH
                  |v k IH|k IH|c k IH|client e k IH|l k IH];
    intros n n' s m Hle Hp; simpl in *; try done.
  - destruct Hp as (? & ? & ?); eauto.
  - destruct Hp as (? & ? & ?); eauto.
  - destruct Hp as (? & ? & ?); eauto.
  - destruct Hp as (? & ? & ?); eauto.
  - destruct Hp as (? & ? & Hk). split; [done|]. split; [done|].
    intros v0 n1 Hn1. apply Hk. lia.
  - destruct Hp as (? & ? & ? & (q & ? & ?) & ?).
    repeat split; eauto. exists q. split; [done|lia].
  - destruct Hp as [? Hk]. split; [lia|]. eauto.
  - intros n1 Hn1. apply Hp. lia.
  - eauto.
  - destruct Hp as (? & ? & ? & ?). repeat split; eauto.
  - eauto.
  - eauto.
Qed.

Lemma pool_inv_update env a n0 ts gs σ st i g p' g' σ' st' :
  pool_inv env a n0 ts gs σ st →
  gs !! i = Some g →
  states σ' !! a = Some st' →
  (length (cells σ) ≤ length (cells σ'))%nat →
  staged a (length (cells σ')) p' g'.1 g'.2 →
  (∀ q, ResponseTypeValue st' = Some q → (q < length (cells σ'))%nat) →
  (is_writing g' + (if writer (Mu st) then 1 else 0)
   = is_writing g + (if writer (Mu st') then 1 else 0))%nat →
  (is_reading g' + readers (Mu st) = is_reading g + readers (Mu st'))%nat →
  (g'.2 = Writing true → ResponseTypeValue st' = None) →
  (∀ j s, j ≠ i → gs !! j = Some (s, Writing true) → ResponseTypeValue st' = None) →
  (is_won g' + match ResponseTypeValue st with Some _ => 1 | None => 0 end
   = is_won g + match ResponseTypeValue st' with Some _ => 1 | None => 0 end)%nat →
  (g'.1 = Rejecting → is_Some (ResponseTypeValue st')) →
  (∀ j m, j ≠ i → gs !! j = Some (Rejecting, m) → is_Some (ResponseTypeValue st')) →
  (∀ e, g'.1 = Failed e → ∃ h c, env h c = Some e) →
  pool_inv env a n0 (<[i := p']> ts) (<[i := g']> gs) σ' st'.
Proof.
  intros [Hst Hstaged Hvalid Hw Hr Hseen Hwon Hrej Hfail] Hi Hst' Hlen Hp' Hvalid'
    Hw' Hr' Hseen1 Hseen2 Hwon' Hrej1 Hrej2 Hfail'.
  pose proof (tally_insert is_writing gs i g g' Hi).
  pose proof (tally_insert is_reading gs i g g' Hi).
  pose proof (tally_insert is_won gs i g g' Hi).
  split.
  - done.
  - apply Forall2_insert; [|done].
    eapply Forall2_impl; [exact Hstaged|]. intros p0 g0. by apply staged_mono.
  - done.
  - lia.
  - lia.
  - intros j s Hj. destruct (decide (j = i)) as [->|Hne].
    + rewrite list_lookup_insert_eq in Hj by (by eapply lookup_lt_Some).
      injection Hj as ->. by apply Hseen1.
    + rewrite list_lookup_insert_ne in Hj by done. by eapply Hseen2.
  - lia.
  - intros j m Hj. destruct (decide (j = i)) as [->|Hne].
    + rewrite list_lookup_insert_eq in Hj by (by eapply lookup_lt_Some).
      injection Hj as ->. by apply Hrej1.
    + rewrite list_lookup_insert_ne in Hj by done. by eapply Hrej2.
  - intros j e m Hj. destruct (decide (j = i)) as [->|Hne].
    + rewrite list_lookup_insert_eq in Hj by (by eapply lookup_lt_Some).
      injection Hj as ->. by eapply Hfail'.
    + rewrite list_lookup_insert_ne in Hj by done. by eapply Hfail.
Qed.

(** A step that leaves the writer flag and the field of the state alone. *)
Lemma pool_inv_quiet env a n0 ts gs σ st i s m p' s' m' σ' st' :
  pool_inv env a n0 ts gs σ st →
  gs !! i = Some (s, m) →
  states σ' !! a = Some st' →
  (length (cells σ) ≤ length (cells σ'))%nat →
  writer (Mu st') = writer (Mu st) →
  ResponseTypeValue st' = ResponseTypeValue st →
  staged a (length (cells σ')) p' s' m' →
  is_writing (s', m') = is_writing (s, m) →
  (is_reading (s', m') + readers (Mu st) = is_reading (s, m) + readers (Mu st'))%nat →
  (m' = Writing true → m ≠ Writing true → ResponseTypeValue st = None) →
  is_won (s', m') = is_won (s, m) →
  (s' = Rejecting → s ≠ Rejecting → is_Some (ResponseTypeValue st)) →
  (∀ e, s' = Failed e → s ≠ Failed e → ∃ h c, env h c = Some e) →
  pool_inv env a n0 (<[i := p']> ts) (<[i := (s', m')]> gs) σ' st'.
Proof.
  intros Hinv Hi Hst' Hlen Hw HRTV Hp' Hw' Hr' Hseen Hwon Hrej Hfail.
  eapply pool_inv_update; eauto.
  - intros q Hq. rewrite HRTV in Hq.
    pose proof (inv_valid _ _ _ _ _ _ _ Hinv q Hq). lia.
  - rewrite Hw, Hw'. done.
  - simpl. rewrite HRTV. intros ->.
    destruct (decide (m = Writing true)) as [->|Hne]; [|by apply Hseen].
    by eapply (inv_seen _ _ _ _ _ _ _ Hinv).
  - intros j s0 _ Hj. rewrite HRTV. by eapply (inv_seen _ _ _ _ _ _ _ Hinv).
  - rewrite HRTV, Hwon. done.
  - simpl. rewrite HRTV. intros ->.
    destruct s; try (by apply Hrej). by eapply (inv_rejecting _ _ _ _ _ _ _ Hinv).
  - intros j m0 _ Hj. rewrite HRTV. by eapply (inv_rejecting _ _ _ _ _ _ _ Hinv).
  - simpl. intros e ->.
    destruct s as [| | |e'|]; try (by apply Hfail).
    destruct (decide (e' = e)) as [->|Hne].
    + by eapply (inv_failed _ _ _ _ _ _ _ Hinv).
    + apply Hfail; congruence.
Qed.

Lemma tally_zero f gs i g : tally f gs = 0%nat → gs !! i = Some g → f g = 0%nat.
Proof. intros H0 Hi. pose proof (tally_lookup_le f gs i g Hi). lia. Qed.

Lemma lookup_set_state_a a st σ st0 :
  states σ !! a = Some st0 → states (set_state a st σ) !! a = Some st.
Proof. intros. apply lookup_set_state. eauto. Qed.

Lemma pool_inv_step env a n0 ts gs σ st ts' σ' :
  pool_inv env a n0 ts gs σ st →
  pool_step env (ts, σ) (ts', σ') →
  ∃ gs' st', pool_inv env a n0 ts' gs' σ' st'
    ∧ (∀ q, ResponseTypeValue st = Some q → ResponseTypeValue st' = Some q)
    ∧ (∃ more, cells σ' = cells σ ++ more).
Proof.
  intros Hinv Hstep.
  inversion Hstep as [ts0 σ0 i p p' σ0' Hi Hp]; subst. clear Hstep.
  destruct (Forall2_lookup_l _ _ _ _ _ (inv_staged _ _ _ _ _ _ _ Hinv) Hi)
    as ([s m] & Hg & Hstaged).
  simpl in Hstaged.
  pose proof (inv_state _ _ _ _ _ _ _ Hinv) as Hst.
  pose proof (inv_valid _ _ _ _ _ _ _ Hinv) as Hvalid.
  assert (Hnil : ∃ more, cells σ = cells σ ++ more) by (exists []; by rewrite app_nil_r).
  destruct p as [r|msg|x k|x k|x k|x k|x k|x v k|q k|v k|k|c k|client e k|l k];
    simpl in Hp, Hstaged.
  - done.
  - done.
  - (* RLock *)
    destruct Hstaged as (-> & -> & Hk). unfold do_rlock in Hp. rewrite Hst in Hp.
    destruct (writer (Mu st)) eqn:Hw; [done|]. injection Hp as <- <-.
    eexists (<[i := (s, Reading)]> gs),
      {| Mu := {| writer := false; readers := S (readers (Mu st)) |};
         ResponseTypeValue := ResponseTypeValue st |}.
    split; [|split; [done|done]].
    eapply (pool_inv_quiet env a n0 ts gs σ st i s Free k s Reading);
      eauto using lookup_set_state_a; simpl; done.
  - (* RUnlock *)
    destruct Hstaged as (-> & -> & Hk). unfold do_runlock in Hp. rewrite Hst in Hp.
    destruct (readers (Mu st)) as [|n] eqn:Hr; [done|]. injection Hp as <- <-.
    eexists (<[i := (s, Free)]> gs),
      {| Mu := {| writer := writer (Mu st); readers := n |};
         ResponseTypeValue := ResponseTypeValue st |}.
    split; [|split; [done|done]].
    eapply (pool_inv_quiet env a n0 ts gs σ st i s Reading k s Free);
      eauto using lookup_set_state_a; simpl; done.
  - (* Lock *)
    destruct Hstaged as (-> & -> & Hk). unfold do_lock in Hp. rewrite Hst in Hp.
    destruct (writer (Mu st)) eqn:Hw; [done|].
    destruct (readers (Mu st)) as [|n] eqn:Hr; [|done]. injection Hp as <- <-.
    eexists (<[i := (s, Writing false)]> gs),
      {| Mu := {| writer := true; readers := O |};
         ResponseTypeValue := ResponseTypeValue st |}.
    split; [|split; [done|done]].
    eapply (pool_inv_update env a n0 ts gs σ st i (s, Free) k (s, Writing false));
      eauto using lookup_set_state_a; simpl; try done.
    + by rewrite Hw.
    + intros j s0 _ Hj. by eapply (inv_seen _ _ _ _ _ _ _ Hinv).
    + intros ->. by eapply (inv_rejecting _ _ _ _ _ _ _ Hinv).
    + intros j m0 _ Hj. by eapply (inv_rejecting _ _ _ _ _ _ _ Hinv).
    + intros e ->. by eapply (inv_failed _ _ _ _ _ _ _ Hinv).
  - (* Unlock *)
    destruct Hstaged as (-> & [b ->] & Hk). unfold do_unlock in Hp. rewrite Hst in Hp.
    destruct (writer (Mu st)) eqn:Hw; [|done]. injection Hp as <- <-.
    eexists (<[i := (s, Free)]> gs),
      {| Mu := {| writer := false; readers := readers (Mu st) |};
         ResponseTypeValue := ResponseTypeValue st |}.
    split; [|split; [done|done]].
    pose proof (inv_writer _ _ _ _ _ _ _ Hinv) as Hw0. rewrite Hw in Hw0.
    eapply (pool_inv_update env a n0 ts gs σ st i (s, Writing b) k (s, Free));
      eauto using lookup_set_state_a; simpl; try done.
    + by rewrite Hw.
    + intros j s0 Hne Hj.
      pose proof (tally_lookup2_le is_writing gs i j _ _ (not_eq_sym Hne) Hg Hj) as Hle.
      change (is_writing (s, Writing b)) with 1%nat in Hle.
      change (is_writing (s0, Writing true)) with 1%nat in Hle. lia.
    + intros ->. by eapply (inv_rejecting _ _ _ _ _ _ _ Hinv).
    + intros j m0 _ Hj. by eapply (inv_rejecting _ _ _ _ _ _ _ Hinv).
    + intros e ->. by eapply (inv_failed _ _ _ _ _ _ _ Hinv).
  - (* GetResponseTypeValue *)
    destruct Hstaged as (-> & Hm & Hk). unfold do_get in Hp. rewrite Hst in Hp.
    injection Hp as <- <-.
    assert (Hread : may_read s (ResponseTypeValue st)).
    { destruct (ResponseTypeValue st) eqn:HRTV; [by destruct s|].
      destruct s; try done.
      - destruct (inv_rejecting _ _ _ _ _ _ _ Hinv i m Hg) as [? Hsome]. congruence.
      - pose proof (inv_won _ _ _ _ _ _ _ Hinv) as Hwon. rewrite HRTV in Hwon.
        assert (Hz : tally is_won gs = 0%nat) by lia.
        pose proof (tally_zero is_won gs i _ Hz Hg). done. }
    specialize (Hk _ _ (Nat.le_refl _) Hvalid Hread).
    eexists (<[i := (stage_after_get s (ResponseTypeValue st),
                     mode_after_get m (ResponseTypeValue st))]> gs), st.
    split; [|split; [done|done]].
    eapply (pool_inv_quiet env a n0 ts gs σ st i s m _ _ _ σ st); eauto.
    + by destruct m.
    + by destruct m.
    + destruct m; simpl; try done. intros [= Hb] _. by apply bool_decide_eq_true in Hb.
    + by destruct s, (ResponseTypeValue st).
    + destruct (ResponseTypeValue st); [eauto|]. by destruct s.
    + intros e He Hne. destruct s, (ResponseTypeValue st); simpl in He; congruence.
  - (* SetResponseTypeValue *)
    destruct Hstaged as (-> & -> & -> & (q & -> & Hq) & Hk). unfold do_set in Hp.
    rewrite Hst in Hp. injection Hp as <- <-.
    eexists (<[i := (Won, Writing false)]> gs),
      {| Mu := Mu st; ResponseTypeValue := Some q |}.
    split; [|split; [|done]].
    + pose proof (inv_seen _ _ _ _ _ _ _ Hinv i Pending Hg) as HRTV.
      eapply (pool_inv_update env a n0 ts gs σ st i (Pending, Writing true) k
                (Won, Writing false));
        eauto using lookup_set_state_a; simpl; try done.
      * by intros q' [= <-].
      * intros j s0 Hne Hj.
        pose proof (tally_lookup2_le is_writing gs i j _ _ (not_eq_sym Hne) Hg Hj) as Hle.
        pose proof (inv_writer _ _ _ _ _ _ _ Hinv) as Hw0.
        change (is_writing (Pending, Writing true)) with 1%nat in Hle.
        change (is_writing (s0, Writing true)) with 1%nat in Hle.
        destruct (writer (Mu st)); lia.
      * by rewrite HRTV.
    + intros q' Hq'. pose proof (inv_seen _ _ _ _ _ _ _ Hinv i Pending Hg). congruence.
  - (* Deref *)
    destruct Hstaged as [Hq Hk].
    unfold do_deref in Hp. destruct (cells σ !! q) as [v|]; [|done]. injection Hp as <- <-.
    eexists (<[i := (s, m)]> gs), st. split; [|split; [done|done]].
    eapply (pool_inv_quiet env a n0 ts gs σ st i s m _ s m σ st); eauto; done.
  - (* New *)
    injection Hp as <- <-.
    eexists (<[i := (s, m)]> gs), st. split; [|split; [done|by eexists]].
    eapply (pool_inv_quiet env a n0 ts gs σ st i s m _ s m _ st); eauto; try done.
    + simpl. rewrite length_app. simpl. lia.
    + simpl. rewrite length_app, Nat.add_1_r. by apply Hstaged.
  - (* NewState *)
    injection Hp as <- <-.
    eexists (<[i := (s, m)]> gs), st. split; [|split; [done|done]].
    eapply (pool_inv_quiet env a n0 ts gs σ st i s m _ s m _ st); eauto; try done.
    simpl. by apply lookup_app_l_Some.
  - (* Outbound *)
    destruct Hstaged as (-> & -> & Hok & Hfail). injection Hp as <- <-.
    destruct (env (calls σ) c) as [e|] eqn:He.
    + eexists (<[i := (Failed e, Free)]> gs), st. split; [|split; [done|done]].
      eapply (pool_inv_quiet env a n0 ts gs σ st i Pending Free _ (Failed e) Free _ st);
        eauto; try done.
      intros e' [= <-] _. eauto.
    + eexists (<[i := (Pending, Free)]> gs), st. split; [|split; [done|done]].
      eapply (pool_inv_quiet env a n0 ts gs σ st i Pending Free _ Pending Free _ st);
        eauto; done.
  - (* Dispatch *)
    injection Hp as <- <-.
    eexists (<[i := (s, m)]> gs), st. split; [|split; [done|done]].
    eapply (pool_inv_quiet env a n0 ts gs σ st i s m _ s m _ st); eauto; done.
  - (* LogError *)
    injection Hp as <- <-.
    eexists (<[i := (s, m)]> gs), st. split; [|split; [done|done]].
    eapply (pool_inv_quiet env a n0 ts gs σ st i s m _ s m _ st); eauto; done.
Qed.

(** A goroutine of the pool stops only to wait for the mutex.  It never
    follows a nil or stray pointer, and the deferred unlocks find the mutex
    held, as [sync.RWMutex] demands. *)
Lemma pool_step_safe env a n0 ts gs σ st i p why :
  pool_inv env a n0 ts gs σ st →
  ts !! i = Some p →
  step env p σ = Stopped why →
  why = Wait.
Proof.
  intros Hinv Hi Hp.
  destruct (Forall2_lookup_l _ _ _ _ _ (inv_staged _ _ _ _ _ _ _ Hinv) Hi)
    as ([s m] & Hg & Hstaged).
  simpl in Hstaged.
  pose proof (inv_state _ _ _ _ _ _ _ Hinv) as Hst.
  destruct p as [r|msg|x k|x k|x k|x k|x k|x v k|q k|v k|k|c k|client e k|l k];
    simpl in Hp, Hstaged; try done.
  - destruct Hstaged as (-> & _). unfold do_rlock in Hp. rewrite Hst in Hp.
    by destruct (writer (Mu st)); simplify_eq.
  - destruct Hstaged as (-> & -> & _). unfold do_runlock in Hp. rewrite Hst in Hp.
    pose proof (tally_lookup_le is_reading gs i _ Hg) as Hle.
    pose proof (inv_readers _ _ _ _ _ _ _ Hinv) as Hr.
    change (is_reading (s, Reading)) with 1%nat in Hle.
    destruct (readers (Mu st)); [lia|done].
  - destruct Hstaged as (-> & _). unfold do_lock in Hp. rewrite Hst in Hp.
    destruct (writer (Mu st)); simplify_eq; [done|].
    by destruct (readers (Mu st)); simplify_eq.
  - destruct Hstaged as (-> & [b ->] & _). unfold do_unlock in Hp. rewrite Hst in Hp.
    pose proof (tally_lookup_le is_writing gs i _ Hg) as Hle.
    pose proof (inv_writer _ _ _ _ _ _ _ Hinv) as Hw.
    change (is_writing (s, Writing b)) with 1%nat in Hle.
    destruct (writer (Mu st)); [done|lia].
  - destruct Hstaged as (-> & _). unfold do_get in Hp. by rewrite Hst in Hp.
  - destruct Hstaged as (-> & _). unfold do_set in Hp. by rewrite Hst in Hp.
  - destruct Hstaged as [Hq _]. unfold do_deref in Hp.
    destruct (cells σ !! q) eqn:Hv; [done|]. apply lookup_ge_None in Hv. lia.
Qed.

Lemma staged_go `{DiscordConsts} a n op : staged a n (go a op) (first_stage op) Free.
Proof. destruct op; walk_staged. Qed.

Lemma tally_replicate f g n : f g = 0%nat → tally f (replicate n g) = 0%nat.
Proof. intros Hg. induction n; simpl; lia. Qed.

Lemma tally_first_stage f ops :
  (∀ op, f (first_stage op, Free) = 0%nat) → tally f ((λ op, (first_stage op, Free)) <$> ops) = 0%nat.
Proof.
  intros Hf. induction ops as [|op ops IH]; [done|].
  rewrite fmap_cons. cbn [tally]. by rewrite Hf, IH.
Qed.

Lemma pool_ok_go `{DiscordConsts} env a ops σ :
  idle a σ →
  pool_ok env a (match response_ptr a σ with Some _ => 1 | None => 0 end)
    (go a <$> ops) σ.
Proof.
  intros Hidle. pose proof (idle_lookup _ _ Hidle) as Hst.
  exists ((λ op, (first_stage op, Free)) <$> ops),
    {| Mu := {| writer := false; readers := O |};
       ResponseTypeValue := response_ptr a σ |}.
  split.
  - exact Hst.
  - apply Forall2_fmap. apply Forall_Forall2_diag. apply Forall_forall.
    intros op _. apply staged_go.
  - simpl. intros q Hq. destruct (idle_cell _ _ _ Hidle Hq) as [k Hk].
    by eapply lookup_lt_Some.
  - simpl. by apply tally_first_stage.
  - simpl. by apply tally_first_stage.
  - intros i s Hi. apply list_lookup_fmap_Some in Hi as (op & Hop & _). congruence.
  - simpl. rewrite tally_first_stage by (by intros []). by destruct (response_ptr a σ).
  - intros i m Hi. apply list_lookup_fmap_Some in Hi as (op & Hop & _).
    destruct op; simpl in Hop; congruence.
  - intros i e m Hi. apply list_lookup_fmap_Some in Hi as (op & Hop & _).
    destruct op; simpl in Hop; congruence.
Qed.

Lemma pool_inv_rtc env a n0 ts σ ts' σ' :
  rtc (pool_step env) (ts, σ) (ts', σ') →
  ∀ gs st, pool_inv env a n0 ts gs σ st →
  ∃ gs' st', pool_inv env a n0 ts' gs' σ' st'
    ∧ (∀ q, ResponseTypeValue st = Some q → ResponseTypeValue st' = Some q)
    ∧ (∃ more, cells σ' = cells σ ++ more).
Proof.
  intros Hrtc. remember (ts, σ) as x eqn:Hx. remember (ts', σ') as y eqn:Hy.
  revert ts σ Hx. induction Hrtc as [x|x [ts1 σ1] z Hstep Hrtc IH]; intros ts σ -> gs st Hinv.
  - injection Hy as -> ->. exists gs, st. split; [done|]. split; [done|].
    exists []. by rewrite app_nil_r.
  - destruct (pool_inv_step _ _ _ _ _ _ _ _ _ Hinv Hstep)
      as (gs1 & st1 & Hinv1 & Hkeep1 & more1 & Hcells1).
    destruct (IH Hy ts1 σ1 eq_refl gs1 st1 Hinv1)
      as (gs' & st' & Hinv' & Hkeep' & more' & Hcells').
    exists gs', st'. split; [done|]. split; [by eauto|].
    exists (more1 ++ more'). by rewrite Hcells', Hcells1, app_assoc.
Qed.

Lemma response_ptr_state a σ st :
  states σ !! a = Some st → response_ptr a σ = ResponseTypeValue st.
Proof. intros Hst. unfold response_ptr. by rewrite Hst. Qed.


Lemma tally_pos f gs : (0 < tally f gs)%nat → ∃ i g, gs !! i = Some g ∧ (0 < f g)%nat.
Proof.
  induction gs as [|g gs IH]; simpl; [lia|]. intros Hpos.
  destruct (decide (0 < f g)%nat) as [Hg|Hg].
  - by exists 0%nat, g.
  - destruct IH as (i & g' & Hi & Hg'); [lia|]. by exists (S i), g'.
Qed.

Lemma returned_Ret {A} (p : prog A) r : returned p = Some r → p = Ret r.
Proof. destruct p; simpl; congruence. Qed.

(** Any number of responder calls and reads run concurrently on a new
    response state.  However they interleave, at most one responder call
    returns nil.  When every outbound call succeeds and all goroutines have
    returned, every responder call has returned nil or
    [ErrInteractionAlreadyReplied], and, if there is a responder call at
    all, exactly one has returned nil. *)
Lemma pool_once_core `{DiscordConsts} env a ops σ ts' σ' :
  idle a σ →
  response_ptr a σ = None →
  rtc (pool_step env) (go a <$> ops, σ) (ts', σ') →
  (∀ i j, ts' !! i = Some (Ret (VErr None)) → ts' !! j = Some (Ret (VErr None)) → i = j)
  ∧ ((∀ h c, env h c = None) →
     (∀ p, p ∈ ts' → is_Some (returned p)) →
     ∀ i r, ts' !! i = Some (Ret (VErr r)) →
            (r = None ∨ r = Some ErrInteractionAlreadyReplied)
            ∧ ∃ j, ts' !! j = Some (Ret (VErr None))).
Proof.
  intros Hidle Hp Hrtc.
  pose proof (pool_ok_go env a ops σ Hidle) as (gs & st & Hinv). rewrite Hp in Hinv.
  destruct (pool_inv_rtc _ _ _ _ _ _ _ Hrtc gs st Hinv) as (gs' & st' & Hinv' & _).
  pose proof (inv_staged _ _ _ _ _ _ _ Hinv') as Hstaged.
  pose proof (inv_won _ _ _ _ _ _ _ Hinv') as Hwon.
  assert (Hwinner : ∀ i, ts' !! i = Some (Ret (VErr None)) →
                         ∃ m, gs' !! i = Some (Won, m)).
  { intros i Hi. destruct (Forall2_lookup_l _ _ _ _ _ Hstaged Hi) as ([s m] & Hg & _ & Hr).
    simpl in Hr. exists m. destruct s; simpl in Hr; try done.
    by specialize (Hr None). }
  split.
  - intros i j Hi Hj. destruct (Hwinner i Hi) as [mi Hgi], (Hwinner j Hj) as [mj Hgj].
    destruct (decide (i = j)) as [|Hne]; [done|].
    pose proof (tally_lookup2_le is_won gs' i j _ _ Hne Hgi Hgj) as Hle.
    change (is_won (Won, mi)) with 1%nat in Hle.
    change (is_won (Won, mj)) with 1%nat in Hle.
    destruct (ResponseTypeValue st'); lia.
  - intros Hok Hall i r Hi.
    destruct (Forall2_lookup_l _ _ _ _ _ Hstaged Hi) as ([s m] & Hg & _ & Hr).
    simpl in Hr.
    assert (Hset : is_Some (ResponseTypeValue st') →
                   ∃ j, ts' !! j = Some (Ret (VErr None))).
    { intros [q Hq]. rewrite Hq in Hwon.
      destruct (tally_pos is_won gs') as (j & [sj mj] & Hgj & Hpos); [lia|].
      destruct (Forall2_lookup_r _ _ _ _ _ Hstaged Hgj) as (pj & Hpj & Hsj).
      destruct (Hall pj) as [rj Hrj]; [by eapply list_elem_of_lookup_2|].
      apply returned_Ret in Hrj as ->. exists j. rewrite Hpj.
      destruct sj; try (unfold is_won in Hpos; simpl in Hpos; lia).
      destruct Hsj as [_ ->]. done. }
    destruct s; simpl in Hr.
    + done.
    + injection Hr as ->. split; [by right|].
      apply Hset. by eapply (inv_rejecting _ _ _ _ _ _ _ Hinv').
    + injection Hr as ->. split; [by left|]. by exists i.
    + destruct (inv_failed _ _ _ _ _ _ _ Hinv' i e m Hg) as (h & c & He).
      by rewrite Hok in He.
    + by specialize (Hr r).
Qed.

Lemma rejecting_step env a n0 ts gs σ st i p q ts' σ' :
  pool_inv env a n0 ts gs σ st →
  ts !! i = Some p →
  rejecting a p →
  ResponseTypeValue st = Some q →
  pool_step env (ts, σ) (ts', σ') →
  ∃ p', ts' !! i = Some p' ∧ rejecting a p'.
Proof.
  intros Hinv Hi Hrej Hq Hstep.
  inversion Hstep as [ts0 σ0 j pj pj' σ0' Hj Hpj]; subst. clear Hstep.
  destruct (decide (j = i)) as [->|Hne].
  2: { exists p. by rewrite list_lookup_insert_ne. }
  rewrite Hi in Hj. injection Hj as <-.
  exists pj'. split; [apply list_lookup_insert_eq; by eapply lookup_lt_Some|].
  pose proof (inv_state _ _ _ _ _ _ _ Hinv) as Hst.
  destruct p as [r|msg|x k|x k|x k|x k|x k|x v k|c k|v k|k|c k|client e k|l k];
    simpl in Hpj, Hrej; try done.
  - destruct Hrej as [-> Hk]. by destruct (do_rlock a σ); simplify_eq.
  - destruct Hrej as [-> Hk]. by destruct (do_runlock a σ); simplify_eq.
  - destruct Hrej as [-> Hk]. by destruct (do_lock a σ); simplify_eq.
  - destruct Hrej as [-> Hk]. by destruct (do_unlock a σ); simplify_eq.
  - destruct Hrej as [-> Hk]. unfold do_get in Hpj. rewrite Hst, Hq in Hpj.
    simplify_eq. apply Hk.
  - destruct (do_deref c σ); simplify_eq. apply Hrej.
  - simplify_eq. apply Hrej.
Qed.

(** A responder goroutine that stands where it can only reject, in a pool
    that keeps to the discipline, on a state that has a reply recorded:
    however the pool runs on, the recorded reply stays, and when the
    goroutine has returned it has returned
    [ErrInteractionAlreadyReplied]. *)
Lemma pool_rejecting env a n0 ts σ i p q ts' σ' :
  pool_ok env a n0 ts σ →
  ts !! i = Some p →
  rejecting a p →
  response_ptr a σ = Some q →
  rtc (pool_step env) (ts, σ) (ts', σ') →
  response_ptr a σ' = Some q
  ∧ ∀ r, ts' !! i = Some (Ret r) → r = VErr (Some ErrInteractionAlreadyReplied).
Proof.
  intros (gs & st & Hinv) Hi Hrej Hq Hrtc.
  rewrite (response_ptr_state _ _ _ (inv_state _ _ _ _ _ _ _ Hinv)) in Hq.
  assert (Hgoal : ∃ gs' st' p', pool_inv env a n0 ts' gs' σ' st'
                    ∧ ResponseTypeValue st' = Some q
                    ∧ ts' !! i = Some p' ∧ rejecting a p').
  { remember (ts, σ) as x eqn:Hx. remember (ts', σ') as y eqn:Hy.
    revert ts σ gs st p Hx Hinv Hi Hrej Hq.
    induction Hrtc as [x|x [ts1 σ1] z Hstep Hrtc IH];
      intros ts σ gs st p -> Hinv Hi Hrej Hq.
    - injection Hy as -> ->. by exists gs, st, p.
    - destruct (pool_inv_step _ _ _ _ _ _ _ _ _ Hinv Hstep)
        as (gs1 & st1 & Hinv1 & Hkeep1 & _).
      destruct (rejecting_step _ _ _ _ _ _ _ _ _ _ _ _ Hinv Hi Hrej Hq Hstep)
        as (p1 & Hi1 & Hrej1).
      by eapply (IH Hy ts1 σ1 gs1 st1 p1 eq_refl Hinv1 Hi1 Hrej1), Hkeep1. }
  destruct Hgoal as (gs' & st' & p' & Hinv' & Hq' & Hi' & Hrej').
  split.
  - by rewrite (response_ptr_state _ _ _ (inv_state _ _ _ _ _ _ _ Hinv')).
  - intros r Hr. rewrite Hi' in Hr. injection Hr as ->. exact Hrej'.
Qed.

Lemma rejecting_commit a responseType :
  rejecting a (r ← respond_commit (Some a) responseType; mret (VErr r)).
Proof. simpl. repeat split; try done. Qed.

Lemma rejecting_go `{DiscordConsts} a client respondFunc interaction responseType data opts :
  rejecting a (go a (OpRespond client respondFunc interaction responseType data opts)).
Proof. simpl. repeat split; try done. Qed.

(** A responder call that stands before its commit when another goroutine
    has recorded a reply returns [ErrInteractionAlreadyReplied], however the
    pool runs on, and the recorded reply stays. *)
Corollary pool_commit_lost env a n0 ts σ i responseType q ts' σ' :
  pool_ok env a n0 ts σ →
  ts !! i = Some (r ← respond_commit (Some a) responseType; mret (VErr r)) →
  response_ptr a σ = Some q →
  rtc (pool_step env) (ts, σ) (ts', σ') →
  response_ptr a σ' = Some q
  ∧ ∀ r, ts' !! i = Some (Ret r) → r = VErr (Some ErrInteractionAlreadyReplied).
Proof.
  intros Hok Hi Hq Hrtc.
  eapply pool_rejecting; eauto using rejecting_commit.
Qed.

(** A responder call started on a state that has a reply recorded returns
    [ErrInteractionAlreadyReplied], however it interleaves with other calls
    and reads, and the recorded reply stays. *)
Corollary pool_late_call_rejected `{DiscordConsts} env a ops σ q ts' σ' i
    client respondFunc interaction responseType data opts :
  idle a σ →
  response_ptr a σ = Some q →
  ops !! i = Some (OpRespond client respondFunc interaction responseType data opts) →
  rtc (pool_step env) (go a <$> ops, σ) (ts', σ') →
  response_ptr a σ' = Some q
  ∧ ∀ r, ts' !! i = Some (Ret r) → r = VErr (Some ErrInteractionAlreadyReplied).
Proof.
  intros Hidle Hq Hop Hrtc.
  eapply pool_rejecting; eauto using pool_ok_go, rejecting_go.
  by rewrite list_lookup_fmap, Hop.
Qed.

(** ** The pool neither crashes nor deadlocks *)

Lemma step_wait {A} env (p : prog A) σ :
  step env p σ = Stopped Wait → (∃ x k, p = RLock x k) ∨ (∃ x k, p = Lock x k).
Proof.
  destruct p; simpl; try done; eauto.
  - unfold do_runlock. destruct (states σ !! s) as [st|]; [|done].
    by destruct (readers (Mu st)).
  - unfold do_unlock. destruct (states σ !! s) as [st|]; [|done].
    by destruct (writer (Mu st)).
  - unfold do_get. by destruct (states σ !! s).
  - unfold do_set. by destruct (states σ !! s).
  - unfold do_deref. by destruct (cells σ !! p).
Qed.

Lemma step_returned {A} env (p : prog A) σ r : step env p σ = Returned r → p = Ret r.
Proof. destruct p; simpl; intros Hp; repeat case_match; by simplify_eq. Qed.

(** A goroutine that holds the mutex can take its next step. *)
Lemma holder_steps env a n0 ts gs σ st j p s m :
  pool_inv env a n0 ts gs σ st →
  ts !! j = Some p →
  gs !! j = Some (s, m) →
  m ≠ Free →
  ∃ p' σ', step env p σ = Next p' σ'.
Proof.
  intros Hinv Hj Hg Hm.
  pose proof (Forall2_lookup_lr _ _ _ _ _ _ (inv_staged _ _ _ _ _ _ _ Hinv) Hj Hg)
    as Hstaged.
  simpl in Hstaged.
  destruct (step env p σ) as [p' σ'|why|r] eqn:Hp; [eauto| |].
  - pose proof (pool_step_safe _ _ _ _ _ _ _ _ _ _ Hinv Hj Hp) as ->.
    destruct (step_wait _ _ _ Hp) as [(x & k & ->)|(x & k & ->)];
      simpl in Hstaged; by destruct Hstaged as (_ & -> & _).
  - apply step_returned in Hp as ->. simpl in Hstaged. by destruct Hstaged as [-> _].
Qed.

(** When a goroutine waits for the mutex, a goroutine holds it. *)
Lemma waiting_has_holder env a n0 ts gs σ st i p :
  pool_inv env a n0 ts gs σ st →
  ts !! i = Some p →
  step env p σ = Stopped Wait →
  ∃ j s m, gs !! j = Some (s, m) ∧ m ≠ Free.
Proof.
  intros Hinv Hi Hp.
  pose proof (inv_state _ _ _ _ _ _ _ Hinv) as Hst.
  assert (Hheld : writer (Mu st) = true ∨ (0 < readers (Mu st))%nat).
  { destruct (step_wait _ _ _ Hp) as [(x & k & ->)|(x & k & ->)]; simpl in Hp.
    - destruct (Forall2_lookup_l _ _ _ _ _ (inv_staged _ _ _ _ _ _ _ Hinv) Hi)
        as (g & _ & -> & _).
      unfold do_rlock in Hp. rewrite Hst in Hp.
      destruct (writer (Mu st)); [by left|done].
    - destruct (Forall2_lookup_l _ _ _ _ _ (inv_staged _ _ _ _ _ _ _ Hinv) Hi)
        as (g & _ & -> & _).
      unfold do_lock in Hp. rewrite Hst in Hp.
      destruct (writer (Mu st)); [by left|].
      destruct (readers (Mu st)); [done|]. right. lia. }
  destruct Hheld as [Hw|Hr].
  - pose proof (inv_writer _ _ _ _ _ _ _ Hinv) as Hw'. rewrite Hw in Hw'.
    destruct (tally_pos is_writing gs) as (j & [s m] & Hj & Hpos); [lia|].
    exists j, s, m. split; [done|]. intros ->. unfold is_writing in Hpos.
    simpl in Hpos. lia.
  - pose proof (inv_readers _ _ _ _ _ _ _ Hinv) as Hr'.
    destruct (tally_pos is_reading gs) as (j & [s m] & Hj & Hpos); [lia|].
    exists j, s, m. split; [done|]. intros ->. unfold is_reading in Hpos.
    simpl in Hpos. lia.
Qed.

(** Any number of responder calls and reads run concurrently on one
    response state.  However they interleave, no goroutine crashes: one
    that cannot step has returned or waits for the mutex.  And the pool does
    not deadlock: as long as a goroutine has not returned, some goroutine
    can step. *)
Theorem pool_safe_and_live `{DiscordConsts} env a ops σ ts' σ' :
  idle a σ →
  rtc (pool_step env) (go a <$> ops, σ) (ts', σ') →
  (∀ i p why, ts' !! i = Some p → step env p σ' = Stopped why → why = Wait)
  ∧ ((∃ i p, ts' !! i = Some p ∧ returned p = None) →
     ∃ ts'' σ'', pool_step env (ts', σ') (ts'', σ'')).
Proof.
  intros Hidle Hrtc.
  destruct (pool_ok_go env a ops σ Hidle) as (gs & st & Hinv).
  destruct (pool_inv_rtc _ _ _ _ _ _ _ Hrtc gs st Hinv) as (gs' & st' & Hinv' & _).
  split.
  - intros i p why Hi Hp. by eapply pool_step_safe.
  - intros (i & p & Hi & Hret).
    destruct (step env p σ') as [p' σ''|why|r] eqn:Hp.
    + eexists _, _. by econstructor.
    + pose proof (pool_step_safe _ _ _ _ _ _ _ _ _ _ Hinv' Hi Hp) as ->.
      destruct (waiting_has_holder _ _ _ _ _ _ _ _ _ Hinv' Hi Hp)
        as (j & s & m & Hg & Hm).
      destruct (Forall2_lookup_r _ _ _ _ _ (inv_staged _ _ _ _ _ _ _ Hinv') Hg)
        as (pj & Hj & _).
      destruct (holder_steps _ _ _ _ _ _ _ _ _ _ _ Hinv' Hj Hg Hm) as (p' & σ'' & Hstep).
      eexists _, _. by econstructor.
    + by apply step_returned in Hp as ->.
Qed.

(** The mutex is not held over the outbound call: whenever a goroutine
    waits for the mutex, a goroutine that does not stand at its outbound
    call can take a step. *)
Theorem pool_outbound_unlocked `{DiscordConsts} env a ops σ ts' σ' i p :
  idle a σ →
  rtc (pool_step env) (go a <$> ops, σ) (ts', σ') →
  ts' !! i = Some p →
  step env p σ' = Stopped Wait →
  ∃ j pj pj' σ'', ts' !! j = Some pj ∧ at_outbound pj = false
                  ∧ step env pj σ' = Next pj' σ''.
Proof.
  intros Hidle Hrtc Hi Hp.
  destruct (pool_ok_go env a ops σ Hidle) as (gs & st & Hinv).
  destruct (pool_inv_rtc _ _ _ _ _ _ _ Hrtc gs st Hinv) as (gs' & st' & Hinv' & _).
  destruct (waiting_has_holder _ _ _ _ _ _ _ _ _ Hinv' Hi Hp) as (j & s & m & Hg & Hm).
  destruct (Forall2_lookup_r _ _ _ _ _ (inv_staged _ _ _ _ _ _ _ Hinv') Hg)
    as (pj & Hj & Hstaged).
  destruct (holder_steps _ _ _ _ _ _ _ _ _ _ _ Hinv' Hj Hg Hm) as (pj' & σ'' & Hstep).
  exists j, pj, pj', σ''. split; [done|]. split; [|done].
  destruct pj; try done. simpl in Hstaged. by destruct Hstaged as (-> & _).
Qed.

(** ** Schedules and sequential runs are runs of the pool *)

Lemma schedule_rtc {A} env order (ts : list (prog A)) σ ts' σ' :
  schedule env order ts σ = Some (ts', σ') →
  rtc (pool_step env) (ts, σ) (ts', σ').
Proof.
  revert ts σ. induction order as [|i order IH]; intros ts σ Hs; simpl in Hs.
  - injection Hs as -> ->. apply rtc_refl.
  - destruct (ts !! i) as [p|] eqn:Hi; [|done].
    destruct (step env p σ) as [p1 σ1| |] eqn:Hp; try done.
    eapply rtc_l; [|by apply IH]. by econstructor.
Qed.

Lemma run_pool {A} env (p : prog A) σ r σ' ts i :
  run env p σ = Done r σ' →
  ts !! i = Some p →
  rtc (pool_step env) (ts, σ) (<[i := Ret r]> ts, σ').
Proof.
  revert σ ts. induction p as [a|msg|x k IH|x k IH|x k IH|x k IH|x k IH|x v k IH|c k IH
                               |v k IH|k IH|c k IH|client e k IH|l k IH];
    intros σ ts Hrun Hi; simpl in Hrun.
  - injection Hrun as -> ->. rewrite list_insert_id by done. apply rtc_refl.
  - done.
  - destruct (do_rlock x σ) as [|σ1] eqn:Hd; [done|]. run_pool_step IH Hi k.
  - destruct (do_runlock x σ) as [|σ1] eqn:Hd; [done|]. run_pool_step IH Hi k.
  - destruct (do_lock x σ) as [|σ1] eqn:Hd; [done|]. run_pool_step IH Hi k.
  - destruct (do_unlock x σ) as [|σ1] eqn:Hd; [done|]. run_pool_step IH Hi k.
  - destruct (do_get x σ) as [|v] eqn:Hd; [done|]. run_pool_step IH Hi (k v).
  - destruct (do_set x v σ) as [|σ1] eqn:Hd; [done|]. run_pool_step IH Hi k.
  - destruct (do_deref c σ) as [|v] eqn:Hd; [done|]. run_pool_step IH Hi (k v).
  - run_pool_step IH Hi (k (length (cells σ))).
  - run_pool_step IH Hi (k (length (states σ))).
  - run_pool_step IH Hi (k (env (calls σ) c)).
  - run_pool_step IH Hi k.
  - run_pool_step IH Hi k.
Qed.

(** ** The race, run *)

(** The acknowledge and the deferred reply race: both outbound calls are
    made, the deferred reply is recorded, and the acknowledge, although its
    outbound call succeeded, returns [ErrInteractionAlreadyReplied]. *)
Example race_run :
  ∃ σ', schedule env_ok race_order race_pool command_world
          = Some ([Ret (VErr (Some ErrInteractionAlreadyReplied)); Ret (VErr None)], σ')
        ∧ length (calls σ') = 2%nat
        ∧ stored_kind 0%nat σ' = Some 5.
Proof. eexists. split; [reflexivity|]. by split. Qed.

(** While one goroutine holds the write lock, a reader waits. *)
Example blocked_run : schedule env_ok blocked_order race_pool command_world = None.
Proof. reflexivity. Qed.

Example blocked_reader_waits :
  ∃ ts σ, schedule env_ok (take 5 blocked_order) race_pool command_world = Some (ts, σ)
          ∧ (ts !! 1%nat ≫= λ p, Some (step env_ok p σ)) = Some (Stopped Wait).
Proof. eexists _, _. split; reflexivity. Qed.

(** The scenario of two subscribers of one command interaction, one calling
    [Acknowledge] and one [DeferCreateMessage], on goroutines of their own:
    at most one of them gets nil, and once both have returned, every
    outbound call having succeeded, one has got nil and the other
    [ErrInteractionAlreadyReplied]. *)
Corollary acknowledge_races_defer `{DiscordConsts} env client sequenceNumber shardID
    respondFunc i σ0 ts' σ' ephemeral opts1 opts2 r1 r2 :
  let interaction := ApplicationCommandInteraction i in
  let a := length (states σ0) in
  let e s := built_event s client sequenceNumber shardID respondFunc interaction a in
  let σ := handled client sequenceNumber shardID respondFunc interaction σ0 in
  (∀ h c, env h c = None) →
  rtc (pool_step env)
    ([r ← Acknowledge (e InteractionCreate) opts1; mret (VErr r);
      r ← DeferCreateMessage (e ApplicationCommandInteractionCreate) ephemeral opts2;
      mret (VErr r)], σ)
    (ts', σ') →
  ts' = [Ret (VErr r1); Ret (VErr r2)] →
  (r1 = None ∧ r2 = Some ErrInteractionAlreadyReplied)
  ∨ (r1 = Some ErrInteractionAlreadyReplied ∧ r2 = None).
Proof.
  intros interaction a e σ Hok Hrtc ->.
  destruct (handled_fresh client sequenceNumber shardID respondFunc interaction σ0)
    as [Hidle Hp].
  destruct (pool_once_core env a
              [OpRespond client respondFunc interaction
                 InteractionResponseTypeAcknowledge None opts1;
               OpRespond client respondFunc interaction
                 InteractionResponseTypeDeferredCreateMessage
                 (if ephemeral
                  then Some (DataMessageCreate
                               {| mc_Content := ""; mc_Flags := MessageFlagEphemeral |})
                  else None) opts2]
              σ _ σ' Hidle Hp Hrtc) as [Hone Hall].
  specialize (Hall Hok).
  assert (Hret : ∀ p, p ∈ [Ret (VErr r1); Ret (VErr r2)] → is_Some (returned p)).
  { intros p Hin. rewrite !elem_of_cons, elem_of_nil in Hin.
    destruct Hin as [->|[->|[]]]; by eexists. }
  destruct (Hall Hret 0%nat r1 eq_refl) as [H1 _].
  destruct (Hall Hret 1%nat r2 eq_refl) as [H2 [j Hj]].
  destruct H1 as [->| ->], H2 as [->| ->]; eauto.
  - by specialize (Hone 0%nat 1%nat eq_refl eq_refl).
  - destruct j as [|[|j]]; simpl in Hj; done.
Qed.


(** ** Whose kind is recorded *)

Lemma pool_ok_rtc env a n0 ts σ ts' σ' :
  pool_ok env a n0 ts σ →
  rtc (pool_step env) (ts, σ) (ts', σ') →
  pool_ok env a n0 ts' σ'.
Proof.
  intros (gs & st & Hinv) Hrtc.
  destruct (pool_inv_rtc _ _ _ _ _ _ _ Hrtc gs st Hinv) as (gs' & st' & Hinv' & _).
  by exists gs', st'.
Qed.

Lemma kinded_go `{DiscordConsts} a client respondFunc interaction responseType data opts :
  kinded a responseType
    (go a (OpRespond client respondFunc interaction responseType data opts)) Before.
Proof. walk_kinded. Qed.

Lemma stored_kind_set_mu a x st st' σ :
  states σ !! x = Some st →
  ResponseTypeValue st' = ResponseTypeValue st →
  stored_kind a (set_state x st' σ) = stored_kind a σ.
Proof.
  intros Hst HRTV. unfold stored_kind, response_ptr. simpl.
  destruct (decide (a = x)) as [->|Hne].
  - rewrite list_lookup_insert_eq by (by eapply lookup_lt_Some).
    rewrite Hst. simpl. by rewrite HRTV.
  - by rewrite list_lookup_insert_ne.
Qed.

Lemma stored_kind_more_cells a σ more k :
  stored_kind a σ = Some k → stored_kind a (set_cells (cells σ ++ more) σ) = Some k.
Proof.
  unfold stored_kind. change (response_ptr a (set_cells _ σ)) with (response_ptr a σ).
  destruct (response_ptr a σ) as [p|]; simpl; [|done]. intros Hk.
  by apply lookup_app_l_Some.
Qed.

Lemma phase_ok_set_mu a k ph x st st' σ :
  states σ !! x = Some st →
  ResponseTypeValue st' = ResponseTypeValue st →
  phase_ok a k ph σ → phase_ok a k ph (set_state x st' σ).
Proof.
  intros Hst HRTV. destruct ph; simpl; try done.
  by rewrite (stored_kind_set_mu a x st st' σ Hst HRTV).
Qed.

(** A step of the goroutine itself. *)
Lemma kinded_step env a k p ph σ p' σ' :
  kinded a k p ph →
  phase_ok a k ph σ →
  step env p σ = Next p' σ' →
  ∃ ph', kinded a k p' ph' ∧ phase_ok a k ph' σ'.
Proof.
  intros Hk Hok Hp.
  destruct p as [r|msg|x k'|x k'|x k'|x k'|x k'|x v k'|q k'|v k'|k'|c k'|client e k'|l k'];
    simpl in Hp, Hk; try done.
  - unfold do_rlock in Hp. destruct (states σ !! x) as [st|] eqn:Hst; [|done].
    destruct (writer (Mu st)); [done|]. injection Hp as <- <-.
    exists ph. split; [done|]. by eapply phase_ok_set_mu.
  - unfold do_runlock in Hp. destruct (states σ !! x) as [st|] eqn:Hst; [|done].
    destruct (readers (Mu st)); [done|]. injection Hp as <- <-.
    exists ph. split; [done|]. by eapply phase_ok_set_mu.
  - unfold do_lock in Hp. destruct (states σ !! x) as [st|] eqn:Hst; [|done].
    destruct (writer (Mu st)); [done|]. destruct (readers (Mu st)); [|done].
    injection Hp as <- <-.
    exists ph. split; [done|]. by eapply phase_ok_set_mu.
  - unfold do_unlock in Hp. destruct (states σ !! x) as [st|] eqn:Hst; [|done].
    destruct (writer (Mu st)); [|done]. injection Hp as <- <-.
    exists ph. split; [done|]. by eapply phase_ok_set_mu.
  - unfold do_get in Hp. destruct (states σ !! x) as [st|]; [|done].
    injection Hp as <- <-. by exists ph.
  - destruct Hk as (-> & q & -> & -> & Hk).
    unfold do_set in Hp. destruct (states σ !! a) as [st|] eqn:Hst; [|done].
    injection Hp as <- <-. exists Recorded. split; [done|].
    simpl in *. unfold stored_kind, response_ptr. simpl.
    by rewrite list_lookup_insert_eq by (by eapply lookup_lt_Some).
  - unfold do_deref in Hp. destruct (cells σ !! q); [|done].
    injection Hp as <- <-. by exists ph.
  - injection Hp as <- <-. exists (phase_after_new k v (length (cells σ)) ph).
    split; [done|]. unfold phase_after_new.
    destruct ph as [|q0|]; simpl in *.
    + destruct (decide (v = k)) as [->|]; simpl; [|done].
      by rewrite lookup_app_r, Nat.sub_diag.
    + destruct (decide (v = k)) as [->|]; simpl.
      * by rewrite lookup_app_r, Nat.sub_diag.
      * by apply lookup_app_l_Some.
    + by apply (stored_kind_more_cells a σ [v] k).
  - injection Hp as <- <-. exists ph. split; [done|].
    destruct ph; simpl in *; try done.
    unfold stored_kind, response_ptr in *. simpl.
    destruct (states σ !! a) as [st|] eqn:Hst; [|done].
    by rewrite (lookup_app_l_Some _ _ _ _ Hst).
  - injection Hp as <- <-. by exists ph.
  - injection Hp as <- <-. by exists ph.
  - injection Hp as <- <-. by exists ph.
Qed.

(** A step of another goroutine of the pool. *)
Lemma phase_ok_pool_step env a n0 ts gs σ st ts' σ' k ph :
  pool_inv env a n0 ts gs σ st →
  pool_step env (ts, σ) (ts', σ') →
  phase_ok a k ph σ → phase_ok a k ph σ'.
Proof.
  intros Hinv Hstep Hok.
  destruct (pool_inv_step _ _ _ _ _ _ _ _ _ Hinv Hstep)
    as (gs' & st' & Hinv' & Hkeep & more & Hcells).
  destruct ph as [|q|]; simpl in *; [done| |].
  - rewrite Hcells. by apply lookup_app_l_Some.
  - unfold stored_kind in *.
    rewrite (response_ptr_state _ _ _ (inv_state _ _ _ _ _ _ _ Hinv)) in Hok.
    rewrite (response_ptr_state _ _ _ (inv_state _ _ _ _ _ _ _ Hinv')).
    destruct (ResponseTypeValue st) as [q|] eqn:Hq; [|done].
    rewrite (Hkeep q eq_refl). simpl in *. rewrite Hcells. by apply lookup_app_l_Some.
Qed.

Lemma kinded_pool_step env a n0 k i ts gs σ st p ph ts' σ' :
  pool_inv env a n0 ts gs σ st →
  ts !! i = Some p →
  kinded a k p ph →
  phase_ok a k ph σ →
  pool_step env (ts, σ) (ts', σ') →
  ∃ p' ph', ts' !! i = Some p' ∧ kinded a k p' ph' ∧ phase_ok a k ph' σ'.
Proof.
  intros Hinv Hi Hk Hph Hstep.
  pose proof (phase_ok_pool_step _ _ _ _ _ _ _ _ _ k ph Hinv Hstep Hph) as Hph1.
  inversion Hstep as [ts0 σ0 j pj pj' σ0' Hj Hpj]; subst.
  destruct (decide (j = i)) as [->|Hne].
  - rewrite Hi in Hj. injection Hj as <-.
    destruct (kinded_step _ _ _ _ _ _ _ _ Hk Hph Hpj) as (ph2 & Hk2 & Hph2).
    exists pj', ph2. split; [|done].
    apply list_lookup_insert_eq. by eapply lookup_lt_Some.
  - exists p, ph. split; [|done]. by rewrite list_lookup_insert_ne.
Qed.

Lemma kinded_rtc env a n0 k i ts σ ts' σ' :
  rtc (pool_step env) (ts, σ) (ts', σ') →
  ∀ gs st p ph,
    pool_inv env a n0 ts gs σ st →
    ts !! i = Some p →
    kinded a k p ph →
    phase_ok a k ph σ →
    ∃ p' ph', ts' !! i = Some p' ∧ kinded a k p' ph' ∧ phase_ok a k ph' σ'.
Proof.
  intros Hrtc. remember (ts, σ) as x eqn:Hx. remember (ts', σ') as y eqn:Hy.
  revert ts σ Hx.
  induction Hrtc as [x|x [ts1 σ1] z Hstep Hrtc IH];
    intros ts σ -> gs st p ph Hinv Hi Hk Hph.
  - injection Hy as -> ->. by exists p, ph.
  - destruct (pool_inv_step _ _ _ _ _ _ _ _ _ Hinv Hstep)
      as (gs1 & st1 & Hinv1 & _).
    destruct (kinded_pool_step _ _ _ _ _ _ _ _ _ _ _ _ _ Hinv Hi Hk Hph Hstep)
      as (p1 & ph1 & Hi1 & Hk1 & Hph1).
    by eapply (IH Hy _ _ eq_refl gs1 st1 p1 ph1).
Qed.

(** Under any interleaving of responder calls and reads on one response
    state, a responder call that has returned nil is the one whose kind the
    state records. *)
Theorem pool_winner_kind `{DiscordConsts} env a ops σ ts' σ' i
    client respondFunc interaction responseType data opts :
  idle a σ →
  ops !! i = Some (OpRespond client respondFunc interaction responseType data opts) →
  rtc (pool_step env) (go a <$> ops, σ) (ts', σ') →
  ts' !! i = Some (Ret (VErr None)) →
  stored_kind a σ' = Some responseType.
Proof.
  intros Hidle Hop Hrtc Hret.
  destruct (pool_ok_go env a ops σ Hidle) as (gs & st & Hinv).
  destruct (kinded_rtc env a _ responseType i _ _ _ _ Hrtc gs st
              (go a (OpRespond client respondFunc interaction responseType data opts))
              Before Hinv) as (p & ph & Hp & Hk & Hph).
  - by rewrite list_lookup_fmap, Hop.
  - apply kinded_go.
  - done.
  - rewrite Hret in Hp. injection Hp as <-. simpl in Hk. by destruct ph.
Qed.


Lemma idle_command_world : idle 0%nat command_world.
Proof. eexists. split; [reflexivity|]. intros p [=]. Defined.

Lemma idle_replied_world : idle 0%nat replied_world.
Proof. eexists. split; [reflexivity|]. intros p [= <-]. by eexists. Defined.

Lemma race_after_rtc order ts σ :
  schedule env_ok order race_pool command_world = Some (ts, σ) →
  rtc (pool_step env_ok) (race_pool, command_world) (race_after order).
Proof. intros Hs. unfold race_after. rewrite Hs. simpl. by eapply schedule_rtc. Qed.

Lemma readers_after_rtc :
  rtc (pool_step env_ok) (readers_pool, replied_world) readers_after.
Proof.
  unfold readers_after.
  destruct (schedule env_ok readers_order readers_pool replied_world) as [[ts σ]|] eqn:Hs.
  - by eapply schedule_rtc.
  - by vm_compute in Hs.
Qed.


Lemma filter_none {A} (P : A → Prop) `{!∀ x, Decision (P x)} (l : list A) :
  (∀ j y, l !! j = Some y → ¬ P y) → filter P l = [].
Proof.
  induction l as [|x l IH]; intros Hnone; [done|].
  rewrite filter_cons. destruct (decide (P x)) as [Hx|Hx].
  - by destruct (Hnone 0%nat x eq_refl).
  - apply IH. intros j y Hj. by apply (Hnone (S j)).
Qed.

Lemma filter_at_most_one {A} (P : A → Prop) `{!∀ x, Decision (P x)} (l : list A) :
  (∀ i j x y, l !! i = Some x → l !! j = Some y → P x → P y → i = j) →
  (length (filter P l) ≤ 1)%nat.
Proof.
  induction l as [|x l IH]; intros Hone; [simpl; lia|].
  rewrite filter_cons. destruct (decide (P x)) as [Hx|Hx].
  - rewrite (filter_none P l); [simpl; lia|].
    intros j y Hj Hy. by specialize (Hone 0%nat (S j) x y eq_refl Hj Hx Hy).
  - apply IH. intros i j x' y' Hi Hj Hx' Hy'.
    by specialize (Hone (S i) (S j) x' y' Hi Hj Hx' Hy') as [= ->].
Qed.

Lemma filter_at_least_one {A} (P : A → Prop) `{!∀ x, Decision (P x)} (l : list A) i x :
  l !! i = Some x → P x → (1 ≤ length (filter P l))%nat.
Proof.
  intros Hi Hx.
  assert (Hin : x ∈ filter P l).
  { apply list_elem_of_filter. split; [done|]. by eapply list_elem_of_lookup_2. }
  destruct (filter P l); [by apply elem_of_nil in Hin|simpl; lia].
Qed.

Lemma returned_nil_Ret p : returned_nil p = true → p = Ret (VErr None).
Proof. by destruct p as [[[|]| |]| | | | | | | | | | | | |]. Qed.

(** Any number of responder calls and reads run concurrently on a new
    response state.  However they interleave, at most one goroutine returns
    nil from its responder call.  When every outbound call succeeds and all
    goroutines have returned, one of them a responder call, exactly one has
    returned nil and every other responder call has returned
    [ErrInteractionAlreadyReplied]. *)
Theorem pool_exactly_once `{DiscordConsts} env a ops σ ts' σ' :
  idle a σ →
  response_ptr a σ = None →
  rtc (pool_step env) (go a <$> ops, σ) (ts', σ') →
  (length (filter (λ p, returned_nil p = true) ts') ≤ 1)%nat
  ∧ ((∀ h c, env h c = None) →
     (∀ p, p ∈ ts' → is_Some (returned p)) →
     (∃ i r, ts' !! i = Some (Ret (VErr r))) →
     length (filter (λ p, returned_nil p = true) ts') = 1%nat
     ∧ ∀ i r, ts' !! i = Some (Ret (VErr r)) →
              r = None ∨ r = Some ErrInteractionAlreadyReplied).
Proof.
  intros Hidle Hp Hrtc.
  destruct (pool_once_core env a ops σ ts' σ' Hidle Hp Hrtc) as [Hone Hall].
  assert (Hle : (length (filter (λ p, returned_nil p = true) ts') ≤ 1)%nat).
  { apply filter_at_most_one. intros i j x y Hi Hj Hx Hy.
    apply returned_nil_Ret in Hx as ->. apply returned_nil_Ret in Hy as ->.
    by apply Hone. }
  split; [exact Hle|].
  intros Hok Hret (i & r & Hi). specialize (Hall Hok Hret). split.
  - destruct (Hall i r Hi) as [_ [j Hj]].
    pose proof (filter_at_least_one (λ p, returned_nil p = true) ts' j _ Hj eq_refl).
    lia.
  - intros i' r' Hi'. by destruct (Hall i' r' Hi').
Qed.

Lemma pool_exactly_once_witness :
  (length (filter (λ p, returned_nil p = true) (race_after race_order).1) ≤ 1)%nat
  ∧ ((∀ h c, env_ok h c = None) →
     (∀ p, p ∈ (race_after race_order).1 → is_Some (returned p)) →
     (∃ i r, (race_after race_order).1 !! i = Some (Ret (VErr r))) →
     length (filter (λ p, returned_nil p = true) (race_after race_order).1) = 1%nat
     ∧ ∀ i r, (race_after race_order).1 !! i = Some (Ret (VErr r)) →
              r = None ∨ r = Some ErrInteractionAlreadyReplied).
Proof.
  apply (@pool_exactly_once sample_consts env_ok 0%nat
           [OpRespond 1%nat None (ApplicationCommandInteraction sample_base) 0 None [];
            OpRespond 1%nat None (ApplicationCommandInteraction sample_base) 5 None []]
           command_world (race_after race_order).1 (race_after race_order).2).
  - exact idle_command_world.
  - reflexivity.
  - exact (race_after_rtc race_order _ _ eq_refl).
Defined.

Lemma pool_winner_kind_witness : stored_kind 0%nat (race_after race_order).2 = Some 5.
Proof.
  apply (@pool_winner_kind sample_consts env_ok 0%nat
           [OpRespond 1%nat None (ApplicationCommandInteraction sample_base) 0 None [];
            OpRespond 1%nat None (ApplicationCommandInteraction sample_base) 5 None []]
           command_world (race_after race_order).1 (race_after race_order).2 1%nat
           1%nat None (ApplicationCommandInteraction sample_base) 5 None []).
  - exact idle_command_world.
  - reflexivity.
  - exact (race_after_rtc race_order _ _ eq_refl).
  - reflexivity.
Defined.

Lemma pool_commit_lost_witness :
  response_ptr 0%nat (race_after race_order).2 = Some 0%nat
  ∧ ∀ r, (race_after race_order).1 !! 0%nat = Some (Ret r) →
         r = VErr (Some ErrInteractionAlreadyReplied).
Proof.
  apply (pool_commit_lost env_ok 0%nat 0%nat (race_after late_order).1
           (race_after late_order).2 0%nat 0 0%nat).
  - apply (pool_ok_rtc env_ok 0%nat 0%nat race_pool command_world).
    + exact (@pool_ok_go sample_consts env_ok 0%nat
               [OpRespond 1%nat None (ApplicationCommandInteraction sample_base) 0 None [];
                OpRespond 1%nat None (ApplicationCommandInteraction sample_base) 5 None []]
               command_world idle_command_world).
    + exact (race_after_rtc late_order _ _ eq_refl).
  - reflexivity.
  - reflexivity.
  - apply (schedule_rtc env_ok [0; 0; 0]%nat). reflexivity.
Defined.

Lemma pool_late_call_rejected_witness :
  response_ptr 0%nat readers_after.2 = Some 0%nat
  ∧ ∀ r, readers_after.1 !! 0%nat = Some (Ret r) →
         r = VErr (Some ErrInteractionAlreadyReplied).
Proof.
  apply (@pool_late_call_rejected sample_consts env_ok 0%nat sample_ops replied_world
           0%nat readers_after.1 readers_after.2 0%nat
           1%nat None (ApplicationCommandInteraction sample_base) 4 None []).
  - exact idle_replied_world.
  - reflexivity.
  - reflexivity.
  - exact readers_after_rtc.
Defined.

Lemma pool_safe_and_live_witness :
  (∀ i p why, (race_after held_order).1 !! i = Some p →
              step env_ok p (race_after held_order).2 = Stopped why → why = Wait)
  ∧ ((∃ i p, (race_after held_order).1 !! i = Some p ∧ returned p = None) →
     ∃ ts'' σ'', pool_step env_ok ((race_after held_order).1, (race_after held_order).2)
                   (ts'', σ'')).
Proof.
  apply (@pool_safe_and_live sample_consts env_ok 0%nat
           [OpRespond 1%nat None (ApplicationCommandInteraction sample_base) 0 None [];
            OpRespond 1%nat None (ApplicationCommandInteraction sample_base) 5 None []]
           command_world (race_after held_order).1 (race_after held_order).2).
  - exact idle_command_world.
  - exact (race_after_rtc held_order _ _ eq_refl).
Defined.

Lemma pool_outbound_unlocked_witness :
  ∃ j pj pj' σ'', (race_after held_order).1 !! j = Some pj ∧ at_outbound pj = false
                  ∧ step env_ok pj (race_after held_order).2 = Next pj' σ''.
Proof.
  eapply (@pool_outbound_unlocked sample_consts env_ok 0%nat
            [OpRespond 1%nat None (ApplicationCommandInteraction sample_base) 0 None [];
             OpRespond 1%nat None (ApplicationCommandInteraction sample_base) 5 None []]
            command_world (race_after held_order).1 (race_after held_order).2 1%nat).
  - exact idle_command_world.
  - exact (race_after_rtc held_order _ _ eq_refl).
  - reflexivity.
  - reflexivity.
Defined.


(** ** A caller that tries again *)

Lemma attempt_all_replied env f a attempts σ p :
  rf_responseState f = Some a →
  idle a σ →
  response_ptr a σ = Some p →
  ∃ σ', run env (attempt_all f attempts) σ
          = Done (replicate (length attempts) (Some ErrInteractionAlreadyReplied)) σ'
        ∧ calls σ' = calls σ
        ∧ idle a σ'
        ∧ stored_kind a σ' = stored_kind a σ.
Proof.
  intros Hf. revert σ. induction attempts as [|[[k d] o] attempts IH]; intros σ Hidle Hp.
  - by exists σ.
  - destruct (run_invoke_replied env f a k d o σ p Hf Hidle Hp) as (k0 & Hk0 & Hrun).
    destruct (IH (set_cells (cells σ ++ [k0]) σ)) as (σ' & Hrun' & Hc & Hidle' & Hk').
    { by apply idle_new_cell. }
    { done. }
    exists σ'. split; [|split; [done|split; [done|]]].
    + change (attempt_all f ((k, d, o) :: attempts))
        with (r ← invoke f k d o; rs ← attempt_all f attempts; mret (r :: rs)).
      rewrite run_bind, Hrun, run_bind, Hrun'. done.
    + rewrite Hk'. unfold stored_kind.
      change (response_ptr a (set_cells _ σ)) with (response_ptr a σ).
      rewrite Hp. simpl. rewrite Hk0. by apply lookup_app_l_Some.
Qed.

Lemma to_transport_outbound_call f response opts :
  to_transport f (outbound_call f response opts).
Proof. unfold to_transport, outbound_call. by destruct (rf_respondFunc f). Qed.

Lemma attempt_all_core env f a attempts σ :
  rf_responseState f = Some a →
  idle a σ →
  response_ptr a σ = None →
  ∃ rs σ' cs,
    run env (attempt_all f attempts) σ = Done rs σ'
    ∧ calls σ' = calls σ ++ cs
    ∧ Forall (to_transport f) cs
    ∧ idle a σ'
    ∧ ((∃ es, rs = Some <$> es ∧ length es = length attempts
              ∧ length cs = length attempts ∧ stored_kind a σ' = None)
       ∨ (∃ es m k d o, rs = (Some <$> es) ++ None :: replicate m (Some ErrInteractionAlreadyReplied)
                        ∧ length rs = length attempts
                        ∧ length cs = S (length es)
                        ∧ attempts !! length es = Some (k, d, o)
                        ∧ stored_kind a σ' = Some k)).
Proof.
  intros Hf. revert σ. induction attempts as [|[[k d] o] attempts IH]; intros σ Hidle Hp.
  - exists [], σ, []. split; [done|]. split; [by rewrite app_nil_r|]. split; [done|].
    split; [done|]. left. exists []. repeat split; try done.
    unfold stored_kind. by rewrite Hp.
  - change (attempt_all f ((k, d, o) :: attempts))
      with (r ← invoke f k d o; rs ← attempt_all f attempts; mret (r :: rs)).
    rewrite run_bind, (run_invoke_empty env f a k d o σ Hf Hidle Hp). cbv zeta.
    set (c := outbound_call f {| Type_ := k; Data := d |} o).
    destruct (env (calls σ) c) as [e|] eqn:He.
    + destruct (IH (push_call c σ)) as (rs & σ' & cs & Hrun & Hc & Hall & Hidle' & Hshape).
      { by apply idle_push_call. }
      { done. }
      exists (Some e :: rs), σ', (c :: cs). rewrite run_bind, Hrun.
      split; [done|]. split; [by rewrite Hc; simpl; rewrite <- app_assoc|].
      split; [constructor; [apply to_transport_outbound_call|done]|].
      split; [done|].
      destruct Hshape as [(es & -> & Hl & Hlc & Hk)|(es & m & k' & d' & o' & -> & Hl & Hlc & Ha & Hk)].
      * left. exists (e :: es). simpl. repeat split; try done; lia.
      * right. exists (e :: es), m, k', d', o'. simpl. repeat split; try done; lia.
    + assert (Hidle1 : idle a (commit a k (push_call c σ)))
        by by apply idle_commit, idle_push_call.
      destruct (attempt_all_replied env f a attempts _ (length (cells σ)) Hf Hidle1)
        as (σ' & Hrun & Hc & Hidle' & Hk).
      { by apply (response_ptr_commit a k (push_call c σ)), idle_push_call. }
      exists (None :: replicate (length attempts) (Some ErrInteractionAlreadyReplied)), σ', [c].
      rewrite run_bind, Hrun. split; [done|]. split; [by rewrite Hc|].
      split; [constructor; [apply to_transport_outbound_call|done]|].
      split; [done|]. right. exists [], (length attempts), k, d, o.
      simpl. rewrite length_replicate. repeat split; try done.
      rewrite Hk. apply stored_kind_commit. by apply idle_push_call.
Qed.



(** Over the gateway no response sink is given: whatever replies the
    subscribers of an interaction try through any of its events, every
    outbound call is [CreateInteractionResponse] of the request client with
    the ID and the token of that interaction. *)
Theorem gateway_replies_use_rest env client sequenceNumber shardID interaction σ0 σ
    i c e attempts :
  run env (gatewayHandlerInteractionCreate client sequenceNumber shardID interaction) σ0
    = Done () σ →
  new_events σ0 σ !! i = Some (c, e) →
  ∃ rs σ' cs,
    run env (attempt_all (Respond e) attempts) σ = Done rs σ'
    ∧ calls σ' = calls σ ++ cs
    ∧ Forall (λ call, ∃ response opts,
                call = CallCreateInteractionResponse client
                         (ID (interaction_base interaction))
                         (Token (interaction_base interaction)) response opts) cs.
Proof.
  unfold gatewayHandlerInteractionCreate. rewrite run_handleInteraction.
  intros [= <-] He. apply new_events_handled in He as [s ->].
  destruct (handled_fresh client sequenceNumber shardID None interaction σ0) as [Hidle Hp].
  destruct (attempt_all_core env
              (Respond (built_event s client sequenceNumber shardID None interaction
                          (length (states σ0))))
              (length (states σ0)) attempts _ eq_refl Hidle Hp)
    as (rs & σ' & cs & Hrun & Hc & Hall & _).
  exists rs, σ', cs. split; [done|]. split; [done|].
  eapply Forall_impl; [exact Hall|]. intros call Hcall.
  unfold to_transport in Hcall. simpl in Hcall.
  destruct call as [|cl id tok response opts]; [done|].
  destruct Hcall as (-> & -> & ->). eauto.
Qed.

Lemma gateway_replies_use_rest_witness :
  ∃ rs σ' cs,
    run env_flaky (attempt_all (Respond generic_event) sample_attempts)
      command_world = Done rs σ'
    ∧ calls σ' = calls command_world ++ cs
    ∧ Forall (λ call, ∃ response opts,
                call = CallCreateInteractionResponse 1%nat 7%N "token" response opts) cs.
Proof.
  apply (gateway_replies_use_rest env_flaky 1%nat 42 0
           (ApplicationCommandInteraction sample_base) empty_world command_world
           0%nat 1%nat generic_event sample_attempts).
  - reflexivity.
  - reflexivity.
Defined.


(** ** The reply methods of the views *)

Lemma call_method_invoke `{DiscordConsts} e c reply :
  call_method e c = Some reply →
  ∃ data opts, reply = invoke (Respond e) (method_kind c) data opts.
Proof.
  unfold call_method. case_bool_decide; [|done]. intros [= <-].
  destruct c; simpl; eauto.
Qed.

(** Whatever reply methods two subscribers call, on whatever events of one
    interaction, the first call to run replies and the second returns
    [ErrInteractionAlreadyReplied]; the state records the kind of the first
    method, and one outbound call has been made. *)
Theorem reply_methods_once `{DiscordConsts} env client sequenceNumber shardID respondFunc
    interaction σ0 i1 c1 e1 i2 c2 e2 m1 m2 reply1 reply2 :
  let σ := handled client sequenceNumber shardID respondFunc interaction σ0 in
  new_events σ0 σ !! i1 = Some (c1, e1) →
  new_events σ0 σ !! i2 = Some (c2, e2) →
  call_method e1 m1 = Some reply1 →
  call_method e2 m2 = Some reply2 →
  (∀ h c, env h c = None) →
  ∃ σ1 σ2, run env reply1 σ = Done None σ1
           ∧ run env reply2 σ1 = Done (Some ErrInteractionAlreadyReplied) σ2
           ∧ stored_kind (length (states σ0)) σ2 = Some (method_kind m1)
           ∧ length (new_calls σ σ2) = 1%nat.
Proof.
  intros σ H1 H2 Hm1 Hm2 Hok.
  apply new_events_handled in H1 as [s1 ->].
  apply new_events_handled in H2 as [s2 ->].
  apply call_method_invoke in Hm1 as (d1 & o1 & ->).
  apply call_method_invoke in Hm2 as (d2 & o2 & ->).
  destruct (handled_fresh client sequenceNumber shardID respondFunc interaction σ0)
    as [Hidle Hp].
  destruct (invoke_twice env
              (Respond (built_event s1 client sequenceNumber shardID respondFunc interaction
                          (length (states σ0))))
              (Respond (built_event s2 client sequenceNumber shardID respondFunc interaction
                          (length (states σ0))))
              (length (states σ0)) (method_kind m1) d1 o1 (method_kind m2) d2 o2 _
              eq_refl eq_refl Hidle Hp (Hok _ _)) as (σ1 & σ2 & Hr1 & Hr2 & Hc & Hk).
  exists σ1, σ2. split; [exact Hr1|]. split; [exact Hr2|]. split; [exact Hk|].
  unfold new_calls. fold σ. rewrite Hc. by rewrite drop_app_length.
Qed.

Lemma reply_methods_once_witness :
  ∃ σ1 σ2, run env_ok (@CreateMessage sample_consts command_event
                         {| mc_Content := "pong"; mc_Flags := 0 |} []) command_world
             = Done None σ1
           ∧ run env_ok (@DeferCreateMessage sample_consts command_event true []) σ1
               = Done (Some ErrInteractionAlreadyReplied) σ2
           ∧ stored_kind 0%nat σ2 = Some 4
           ∧ length (new_calls command_world σ2) = 1%nat.
Proof.
  apply (@reply_methods_once sample_consts env_ok 1%nat 42 0 None
           (ApplicationCommandInteraction sample_base) empty_world
           1%nat 1%nat command_event 1%nat 1%nat command_event
           (CreateMessage_ {| mc_Content := "pong"; mc_Flags := 0 |} [])
           (DeferCreateMessage_ true [])).
  - reflexivity.
  - reflexivity.
  - reflexivity.
  - reflexivity.
  - reflexivity.
Defined.

(** After a reply method has replied through one event of an interaction,
    [IsDefferedReply] and [IsDefferedUpdate] of every event of that
    interaction tell whether the method sent the deferred-create or the
    deferred-update kind: after [DeferCreateMessage] the first is true,
    after [DeferUpdateMessage] the second. *)
Theorem reply_observed `{DiscordConsts} env client sequenceNumber shardID respondFunc
    interaction σ0 i1 c1 e1 i2 c2 e2 m reply :
  let σ := handled client sequenceNumber shardID respondFunc interaction σ0 in
  new_events σ0 σ !! i1 = Some (c1, e1) →
  new_events σ0 σ !! i2 = Some (c2, e2) →
  call_method e1 m = Some reply →
  (∀ h c, env h c = None) →
  ∃ σ1 b1 σ2 b2 σ3,
    run env reply σ = Done None σ1
    ∧ run env (Event_IsDefferedReply e2) σ1 = Done b1 σ2
    ∧ run env (Event_IsDefferedUpdate e2) σ1 = Done b2 σ3
    ∧ (b1 = true ↔ method_kind m = InteractionResponseTypeDeferredCreateMessage)
    ∧ (b2 = true ↔ method_kind m = InteractionResponseTypeDeferredUpdateMessage)
    ∧ (method_of m = mDeferCreateMessage → b1 = true)
    ∧ (method_of m = mDeferUpdateMessage → b2 = true).
Proof.
  intros σ H1 H2 Hm Hok.
  apply new_events_handled in H1 as [s1 ->].
  apply new_events_handled in H2 as [s2 ->].
  apply call_method_invoke in Hm as (d & o & ->).
  destruct (handled_fresh client sequenceNumber shardID respondFunc interaction σ0)
    as [Hidle Hp].
  set (a := length (states σ0)) in *.
  pose proof (run_invoke_empty env
                (Respond (built_event s1 client sequenceNumber shardID respondFunc
                            interaction a)) a (method_kind m) d o σ eq_refl Hidle Hp)
    as Hrun.
  cbv zeta in Hrun. rewrite Hok in Hrun.
  set (σ1 := commit a (method_kind m) _) in Hrun.
  assert (Hidle1 : idle a σ1) by by apply idle_commit, idle_push_call.
  assert (Hk1 : stored_kind a σ1 = Some (method_kind m))
    by by apply stored_kind_commit, idle_push_call.
  destruct (run_deferred_check env a σ1 InteractionResponseTypeDeferredCreateMessage Hidle1)
    as (σ2 & Hb1 & _).
  destruct (run_deferred_check env a σ1 InteractionResponseTypeDeferredUpdateMessage Hidle1)
    as (σ3 & Hb2 & _).
  rewrite Hk1 in Hb1, Hb2.
  eexists σ1, _, σ2, _, σ3. split; [exact Hrun|]. split; [exact Hb1|]. split; [exact Hb2|].
  split; [rewrite bool_decide_eq_true; split; congruence|].
  split; [rewrite bool_decide_eq_true; split; congruence|].
  split; intros Hmeth; apply bool_decide_eq_true; by destruct m.
Qed.

Lemma reply_observed_witness :
  ∃ σ1 b1 σ2 b2 σ3,
    run env_ok (@DeferCreateMessage sample_consts command_event false []) command_world
      = Done None σ1
    ∧ run env_ok (@Event_IsDefferedReply sample_consts generic_event) σ1 = Done b1 σ2
    ∧ run env_ok (@Event_IsDefferedUpdate sample_consts generic_event) σ1 = Done b2 σ3
    ∧ (b1 = true ↔ 5 = 5)
    ∧ (b2 = true ↔ 5 = 6)
    ∧ (mDeferCreateMessage = mDeferCreateMessage → b1 = true)
    ∧ (mDeferCreateMessage = mDeferUpdateMessage → b2 = true).
Proof.
  apply (@reply_observed sample_consts env_ok 1%nat 42 0 None
           (ApplicationCommandInteraction sample_base) empty_world
           1%nat 1%nat command_event 0%nat 1%nat generic_event
           (DeferCreateMessage_ false [])).
  - reflexivity.
  - reflexivity.
  - reflexivity.
  - reflexivity.
Defined.


(** ** One guard per interaction *)

Lemma lookup_set_state_ne a b st σ :
  b ≠ a → states (set_state a st σ) !! b = states σ !! b.
Proof. intros Hne. simpl. by apply list_lookup_insert_ne. Qed.

Lemma idle_other_set_state a b st σ :
  b ≠ a → idle b σ → idle b (set_state a st σ).
Proof.
  intros Hne (v & Hst & Hv). exists v. split; [|done].
  by rewrite lookup_set_state_ne.
Qed.

Lemma stored_kind_other_commit a b k σ :
  b ≠ a → idle b σ → stored_kind b (commit a k σ) = stored_kind b σ.
Proof.
  intros Hne (v & Hst & Hv). unfold stored_kind, response_ptr, commit.
  rewrite lookup_set_state_ne by done.
  change (states (set_cells (cells σ ++ [k]) σ)) with (states σ).
  rewrite Hst. simpl.
  destruct v as [p|]; simpl; [|done].
  destruct (Hv p eq_refl) as [x Hx]. rewrite Hx. by apply lookup_app_l_Some.
Qed.

(** A responder call on the state at [a] leaves the state at [b] alone. *)
Lemma invoke_frame env f a b responseType data opts σ :
  rf_responseState f = Some a →
  b ≠ a →
  idle a σ →
  idle b σ →
  ∃ r σ', run env (invoke f responseType data opts) σ = Done r σ'
          ∧ idle a σ' ∧ idle b σ'
          ∧ stored_kind b σ' = stored_kind b σ
          ∧ (r = None → stored_kind a σ' = Some responseType).
Proof.
  intros Hf Hne Hidle Hidleb.
  destruct (response_ptr a σ) as [p|] eqn:Hp.
  - destruct (run_invoke_replied env f a responseType data opts σ p Hf Hidle Hp)
      as (k0 & Hk0 & Hrun).
    eexists _, _. split; [exact Hrun|]. split; [by apply idle_new_cell|].
    split; [by apply idle_new_cell|]. split; [|done].
    destruct Hidleb as (v & Hst & Hv). unfold stored_kind, response_ptr. simpl.
    rewrite Hst. simpl. destruct v as [q|]; simpl; [|done].
    destruct (Hv q eq_refl) as [x Hx]. rewrite Hx. by apply lookup_app_l_Some.
  - rewrite (run_invoke_empty env f a responseType data opts σ Hf Hidle Hp). cbv zeta.
    set (c := outbound_call f _ opts).
    destruct (env (calls σ) c) as [e|].
    + eexists _, _. split; [done|]. split; [by apply idle_push_call|].
      split; [by apply idle_push_call|]. done.
    + eexists _, _. split; [done|]. split; [by apply idle_commit, idle_push_call|].
      split.
      { unfold commit. apply idle_other_set_state; [done|].
        by apply (idle_new_cell b responseType (push_call c σ)), idle_push_call. }
      split.
      { by rewrite (stored_kind_other_commit a b responseType (push_call c σ) Hne
                      (idle_push_call b c σ Hidleb)). }
      intros _. apply stored_kind_commit. by apply idle_push_call.
Qed.

Lemma handled_keeps_idle client sequenceNumber shardID respondFunc interaction a σ :
  idle a σ → idle a (handled client sequenceNumber shardID respondFunc interaction σ).
Proof.
  intros (v & Hst & Hv). exists v. rewrite handled_states, handled_cells.
  split; [by apply lookup_app_l_Some|done].
Qed.

Lemma handled_keeps_kind client sequenceNumber shardID respondFunc interaction a σ :
  idle a σ →
  stored_kind a (handled client sequenceNumber shardID respondFunc interaction σ)
  = stored_kind a σ.
Proof.
  intros (v & Hst & Hv). unfold stored_kind, response_ptr.
  rewrite handled_states, handled_cells.
  by rewrite (lookup_app_l_Some _ _ _ _ Hst), Hst.
Qed.

(** Each interaction has a guard of its own.  When a second interaction
    comes in, the guard of the first keeps what it records; a reply to one
    of the two interactions, whatever it returns, leaves the guard of the
    other as it was, so the first reply to the other still succeeds. *)
Theorem guards_independent env clientA seqA shardA sinkA interactionA
    clientB seqB shardB sinkB interactionB σ0 kA dA oA kB dB oB :
  let a := length (states σ0) in
  let b := S a in
  let σ1 := handled clientA seqA shardA sinkA interactionA σ0 in
  let σ2 := handled clientB seqB shardB sinkB interactionB σ1 in
  let fA := respond clientA sinkA interactionA (Some a) in
  let fB := respond clientB sinkB interactionB (Some b) in
  new_events σ0 σ1 !! 0%nat
    = Some (clientA, built_event InteractionCreate clientA seqA shardA sinkA interactionA a)
  ∧ new_events σ1 σ2 !! 0%nat
    = Some (clientB, built_event InteractionCreate clientB seqB shardB sinkB interactionB b)
  ∧ ∃ rA σ3,
      run env (invoke fA kA dA oA) σ2 = Done rA σ3
      ∧ stored_kind b σ3 = None
      ∧ ∃ rB σ4,
          run env (invoke fB kB dB oB) σ3 = Done rB σ4
          ∧ rB = env (calls σ3) (outbound_call fB {| Type_ := kB; Data := dB |} oB)
          ∧ stored_kind a σ4 = stored_kind a σ3
          ∧ (rB = None → stored_kind b σ4 = Some kB).
Proof.
  intros a b σ1 σ2 fA fB.
  destruct (handled_fresh clientA seqA shardA sinkA interactionA σ0) as [HidleA HpA].
  destruct (handled_fresh clientB seqB shardB sinkB interactionB σ1) as [HidleB HpB].
  assert (Hb : length (states σ1) = b).
  { unfold σ1. rewrite handled_states, length_app. simpl. unfold b, a. lia. }
  rewrite Hb in HidleB, HpB. fold σ1 in HidleA, HpA. fold σ2 in HidleB, HpB.
  assert (HidleA2 : idle a σ2) by by apply handled_keeps_idle.
  split.
  { unfold new_events, σ1. rewrite handled_dispatched. cbv zeta.
    by rewrite drop_app_length. }
  split.
  { unfold new_events, σ2. rewrite handled_dispatched. cbv zeta.
    rewrite drop_app_length. by rewrite Hb. }
  destruct (invoke_frame env fA a b kA dA oA σ2 eq_refl ltac:(unfold b; lia) HidleA2 HidleB)
    as (rA & σ3 & HrunA & HidleA3 & HidleB3 & HkB3 & _).
  exists rA, σ3. split; [exact HrunA|].
  assert (HpB3 : response_ptr b σ3 = None).
  { unfold stored_kind in HkB3. rewrite HpB in HkB3. simpl in HkB3.
    destruct (response_ptr b σ3) as [p|] eqn:Hp3; [|done].
    destruct (idle_cell _ _ _ HidleB3 Hp3) as [x Hx]. simpl in HkB3. congruence. }
  split; [unfold stored_kind; by rewrite HpB3|].
  pose proof (run_invoke_empty env fB b kB dB oB σ3 eq_refl HidleB3 HpB3) as HrunB.
  cbv zeta in HrunB.
  destruct (env (calls σ3) (outbound_call fB {| Type_ := kB; Data := dB |} oB)) as [e|].
  - eexists _, _. split; [exact HrunB|]. split; [done|]. split; [done|]. done.
  - eexists _, _. split; [exact HrunB|]. split; [done|]. split.
    + by rewrite (stored_kind_other_commit b a kB _ ltac:(unfold b; lia)
                    (idle_push_call a _ σ3 HidleA3)).
    + intros _. apply stored_kind_commit. by apply idle_push_call.
Qed.

(** ** A responder without a response state *)

(** A responder that was built with a nil response state finds no reply
    recorded and makes its outbound call; when that call fails it returns
    the error, and when it succeeds the commit dereferences the nil pointer
    and the call panics, after the reply has gone out. *)
Theorem respond_nil_state env f responseType data opts σ :
  rf_responseState f = None →
  let c := outbound_call f {| Type_ := responseType; Data := data |} opts in
  run env (invoke f responseType data opts) σ =
  match env (calls σ) c with
  | Some e => Done (Some e) (push_call c σ)
  | None => Halt (Crash "invalid memory address or nil pointer dereference") (push_call c σ)
  end.
Proof.
  intros Hf c. unfold invoke. rewrite Hf, run_bind. simpl. fold c.
  by destruct (env (calls σ) c).
Qed.

Lemma respond_nil_state_witness :
  run env_ok (invoke (respond 1%nat None (ApplicationCommandInteraction sample_base) None)
                4 None []) command_world
  = Halt (Crash "invalid memory address or nil pointer dereference")
      (push_call (CallCreateInteractionResponse 1%nat 7%N "token"
                    {| Type_ := 4; Data := None |} []) command_world).
Proof.
  apply (respond_nil_state env_ok
           (respond 1%nat None (ApplicationCommandInteraction sample_base) None)
           4 None [] command_world).
  reflexivity.
Defined.

(** ** Reads change nothing *)

(** [ResponseType], [IsDefferedReply] and [IsDefferedUpdate] return and
    leave the mutex free; they make no outbound call, dispatch and log
    nothing, and leave every response state and every cell as it was: all
    they add is the cell of the copy they read. *)
Theorem reads_change_nothing `{DiscordConsts} env a σ :
  idle a σ →
  ∀ read : prog Value,
    read ∈ [go a OpResponseType; go a OpIsDefferedReply; go a OpIsDefferedUpdate] →
    ∃ r σ' more,
      run env read σ = Done r σ'
      ∧ states σ' = states σ
      ∧ cells σ' = cells σ ++ more ∧ (length more ≤ 1)%nat
      ∧ calls σ' = calls σ
      ∧ dispatched σ' = dispatched σ
      ∧ logs σ' = logs σ.
Proof.
  intros Hidle read Hread.
  assert (Hcore : ∃ r σ' more,
            run env (ResponseType (Some a)) σ = Done r σ'
            ∧ (∀ q, r = Some q → is_Some (cells σ' !! q))
            ∧ states σ' = states σ
            ∧ cells σ' = cells σ ++ more ∧ (length more ≤ 1)%nat
            ∧ calls σ' = calls σ
            ∧ dispatched σ' = dispatched σ
            ∧ logs σ' = logs σ).
  { destruct (response_ptr a σ) as [p|] eqn:Hp.
    - destruct (idle_cell _ _ _ Hidle Hp) as [k0 Hk0].
      rewrite (run_ResponseType_set _ _ _ _ _ Hidle Hp Hk0).
      eexists _, _, [k0]. split; [done|]. split.
      { intros q [= <-]. simpl. exists k0. by rewrite lookup_app_r, Nat.sub_diag. }
      repeat split; try done; simpl; lia.
    - rewrite (run_ResponseType_empty _ _ _ Hidle Hp).
      exists None, σ, []. split; [done|]. split; [done|].
      rewrite app_nil_r. repeat split; try done; simpl; lia. }
  destruct Hcore as (r & σ' & more & Hrun & Hvalid & Hrest).
  assert (Hpred : ∀ k, ∃ r' σ'' more',
            run env (x ← (responseType ← ResponseType (Some a);
                          match responseType with
                          | None => mret false
                          | Some p => v ← deref p; mret (bool_decide (v = k))
                          end); mret (VBool x)) σ = Done r' σ''
            ∧ states σ'' = states σ
            ∧ cells σ'' = cells σ ++ more' ∧ (length more' ≤ 1)%nat
            ∧ calls σ'' = calls σ
            ∧ dispatched σ'' = dispatched σ
            ∧ logs σ'' = logs σ).
  { intros k. rewrite !run_bind, Hrun.
    destruct r as [q|]; simpl.
    - destruct (Hvalid q eq_refl) as [v Hv]. unfold do_deref. rewrite Hv.
      by eexists _, σ', more.
    - by eexists _, σ', more. }
  rewrite !elem_of_cons, elem_of_nil in Hread.
  destruct Hread as [->|[->|[->|[]]]].
  - exists (VPtr r), σ', more. unfold go. rewrite run_bind, Hrun.
    split; [done|]. apply Hrest.
  - apply Hpred.
  - apply Hpred.
Qed.

Lemma reads_change_nothing_witness :
  ∃ r σ' more,
    run env_ok (@go sample_consts 0%nat OpIsDefferedReply) replied_world = Done r σ'
    ∧ states σ' = states replied_world
    ∧ cells σ' = cells replied_world ++ more ∧ (length more ≤ 1)%nat
    ∧ calls σ' = calls replied_world
    ∧ dispatched σ' = dispatched replied_world
    ∧ logs σ' = logs replied_world.
Proof.
  apply (@reads_change_nothing sample_consts env_ok 0%nat replied_world
           idle_replied_world).
  apply list_elem_of_further, list_elem_of_here.
Defined.
